(** * data-exploration.py: streaming TMX subset loader and corpus statistics

    A shallow embedding of [data-exploration.py].

    - A Python [str] is a [string], one character for one code point.  The
      classification of characters that CPython takes from its Unicode
      database ([str.isspace], the class [\w] of [re], [str.lower]) is not
      part of the program: it is the class [CharTable], of which [latin1]
      is the instance for the code points below 256.  General statements
      hold for every table; examples are evaluated with [latin1].
    - A parsed document is a tree of [Element]s as [xml.etree.ElementTree]
      builds it, and [iterparse] is the stream of start and end events of
      that tree.  A document that the parser rejects has no tree and is
      outside the model.
    - Python [int]s are [Z], lengths included.  Python [float]s are exact
      rationals [Q]: what is proved of a mean is which sum is divided by
      which count, not how it is rounded.
    - A function that prints or raises is a computation in [Py]. *)

From Stdlib Require Import List String Ascii Bool ZArith QArith Lia Permutation.
Import ListNotations.

Local Open Scope string_scope.
Local Open Scope list_scope.
Local Open Scope Z_scope.

(** ** Text *)

Definition str := string.

Class CharTable := {
  isspace : ascii -> bool;      (* str.isspace, one character *)
  isword : ascii -> bool;       (* the class \w of re under re.UNICODE *)
  lower : str -> str            (* str.lower *)
}.

Definition in_range (lo hi : N) (c : ascii) : bool :=
  (lo <=? N_of_ascii c)%N && (N_of_ascii c <=? hi)%N.

Definition lower_char (c : ascii) : ascii :=
  if in_range 65 90 c || in_range 192 214 c || in_range 216 222 c
  then ascii_of_N (N_of_ascii c + 32) else c.

Fixpoint map_str (f : ascii -> ascii) (s : str) : str :=
  match s with
  | EmptyString => EmptyString
  | String c s' => String (f c) (map_str f s')
  end.

(** The table of CPython for the code points below 256. *)
#[export] Instance latin1 : CharTable := {|
  isspace c := in_range 9 13 c || in_range 28 32 c
               || (N_of_ascii c =? 133)%N || (N_of_ascii c =? 160)%N;
  isword c := in_range 48 57 c || in_range 65 90 c || (N_of_ascii c =? 95)%N
              || in_range 97 122 c
              || (N_of_ascii c =? 170)%N || in_range 178 179 c
              || (N_of_ascii c =? 181)%N || in_range 185 186 c
              || in_range 188 190 c || in_range 192 214 c
              || in_range 216 246 c || in_range 248 255 c;
  lower := map_str lower_char
|}.

Definition len (s : str) : Z := Z.of_nat (String.length s).

Definition is_empty_str (s : str) : bool :=
  match s with EmptyString => true | _ => false end.

(** [x or ""] for an optional text. *)
Definition or_empty (o : option str) : str :=
  match o with
  | Some s => s
  | None => ""
  end.

(** [s[:k]] for a list and for a string, with Python's reading of a
    negative bound. *)
Definition slice_to {A} (k : Z) (l : list A) : list A :=
  if k <? 0 then firstn (Z.to_nat (Z.of_nat (List.length l) + k)) l
  else firstn (Z.to_nat k) l.

Definition str_slice_to (k : Z) (s : str) : str :=
  if k <? 0 then substring 0 (Z.to_nat (len s + k)) s
  else substring 0 (Z.to_nat k) s.

(** [s[-n:] == suf] with [n = len(suf)]. *)
Definition ends_with (suf s : str) : bool :=
  (substring (String.length s - String.length suf) (String.length suf) s
   =? suf)%string.

(** The part of [s] after its last [sep] ([s.split(sep)[-1]]). *)
Fixpoint split_last (sep : ascii) (cur s : str) : str :=
  match s with
  | EmptyString => cur
  | String c s' =>
      if Ascii.eqb c sep then split_last sep EmptyString s'
      else split_last sep (cur ++ String c EmptyString)%string s'
  end.

Fixpoint contains (sep : ascii) (s : str) : bool :=
  match s with
  | EmptyString => false
  | String c s' => Ascii.eqb c sep || contains sep s'
  end.

(** Every character of [s] is of class [p]. *)
Fixpoint str_forall (p : ascii -> bool) (s : str) : bool :=
  match s with
  | EmptyString => true
  | String c s' => p c && str_forall p s'
  end.

Section Text.
Context {T : CharTable}.

Fixpoint lstrip (s : str) : str :=
  match s with
  | EmptyString => EmptyString
  | String c s' => if isspace c then lstrip s' else s
  end.

Fixpoint rstrip (s : str) : str :=
  match s with
  | EmptyString => EmptyString
  | String c s' =>
      match rstrip s' with
      | EmptyString => if isspace c then EmptyString else String c EmptyString
      | r => String c r
      end
  end.

(** [s.strip()] *)
Definition strip (s : str) : str := rstrip (lstrip s).

(** The maximal runs of characters of class [p], left to right; [cur] is
    the run being read. *)
Fixpoint runs (p : ascii -> bool) (cur s : str) : list str :=
  match s with
  | EmptyString => if is_empty_str cur then [] else [cur]
  | String c s' =>
      if p c then runs p (cur ++ String c EmptyString)%string s'
      else if is_empty_str cur then runs p EmptyString s'
           else cur :: runs p EmptyString s'
  end.

(** [s.split()] *)
Definition split (s : str) : list str :=
  runs (fun c => negb (isspace c)) EmptyString s.

(** [[m.group() for m in re.compile(r"\b\w+\b", re.UNICODE).finditer(s)]] *)
Definition finditer_words (s : str) : list str :=
  runs isword EmptyString s.

(** [len(s.split())] *)
Definition word_count (s : str) : Z := Z.of_nat (List.length (split s)).
End Text.

(** ** Elements and the event stream *)

Local Set Warnings "-register-all".

Inductive Element : Type :=
  mkElement {
    tag : str;
    attrib : list (str * str);
    text : option str;
    tail : option str;
    children : list Element
  }.

Inductive event := ev_start | ev_end.

(** [elem.get(key, default)] *)
Fixpoint get_attr (a : list (str * str)) (key : str) (default : str) : str :=
  match a with
  | [] => default
  | (k, v) :: a' => if (k =? key)%string then v else get_attr a' key default
  end.

Definition get (elem : Element) (key default : str) : str :=
  get_attr (attrib elem) key default.

(** [elem.iter()]: the element and its descendants in document order. *)
Fixpoint iter (e : Element) : list Element :=
  e :: flat_map iter (children e).

Definition descendants (e : Element) : list Element :=
  flat_map iter (children e).

(** The test of ElementPath for the tag pattern [{*}name]. *)
Definition matches_any_ns (name el_tag : str) : bool :=
  (el_tag =? name)%string || ends_with ("}" ++ name)%string el_tag.

(** [elem.find(".//{*}name")] *)
Definition find_any_ns (name : str) (elem : Element) : option Element :=
  find (fun d => matches_any_ns name (tag d)) (descendants elem).

(** [elem.find(name)] for a plain tag name: the first child with that tag. *)
Definition find_child (name : str) (elem : Element) : option Element :=
  find (fun c => (tag c =? name)%string) (children elem).

(** The truth value of an element is that of [len(elem)]: an element with no
    children is false. *)
Definition truthy (e : Element) : bool :=
  match children e with
  | [] => false
  | _ :: _ => true
  end.

(** [a or b] on the results of two [find]s. *)
Definition py_or (a b : option Element) : option Element :=
  match a with
  | Some e => if truthy e then a else b
  | None => b
  end.

(** [ET.iterparse(path, events=("start", "end"))] on a document with root
    [e]. *)
Fixpoint iterparse (e : Element) : list (event * Element) :=
  (ev_start, e) :: flat_map iterparse (children e) ++ [(ev_end, e)].

(** ** The loader *)

Definition Pair : Type := str * str.

Record Cursor := mkCursor {
  pairs : list Pair;
  in_tu : bool;
  en_text : option str;
  fr_text : option str
}.

Definition init : Cursor :=
  {| pairs := []; in_tu := false; en_text := None; fr_text := None |}.

(** The outcome of one turn of the loop. *)
Inductive flow := Continue (c : Cursor) | Break (c : Cursor).

Definition xml_lang : str := "{http://www.w3.org/XML/1998/namespace}lang".

(** [elem.tag.split("}")[-1] if "}" in elem.tag else elem.tag] *)
Definition local_tag (elem : Element) : str :=
  if contains "}" (tag elem) then split_last "}" EmptyString (tag elem)
  else tag elem.

Section Loader.
Context {T : CharTable}.

Definition _get_seg_text (elem : Element) : str :=
  match py_or (find_any_ns "seg" elem) (find_child "seg" elem) with
  | Some seg =>
      strip (or_empty (text seg)
             ++ concat "" (map (fun e => or_empty (tail e)) (children seg)))%string
  | None => ""
  end.

(** The body of the [for] loop. *)
Definition loop_body (max_tu : Z) (c : Cursor) (ev : event * Element) : flow :=
  let (event, elem) := ev in
  let tag := local_tag elem in
  if (tag =? "tu")%string then
    match event with
    | ev_start =>
        Continue {| pairs := pairs c; in_tu := true;
                    en_text := None; fr_text := None |}
    | ev_end =>
        match en_text c, fr_text c with
        | Some en, Some fr =>
            let pairs' := pairs c ++ [(en, fr)] in
            if Z.of_nat (List.length pairs') >=? max_tu
            then Break {| pairs := pairs'; in_tu := in_tu c;
                          en_text := en_text c; fr_text := fr_text c |}
            else Continue {| pairs := pairs'; in_tu := false;
                             en_text := en_text c; fr_text := fr_text c |}
        | _, _ =>
            Continue {| pairs := pairs c; in_tu := false;
                        en_text := en_text c; fr_text := fr_text c |}
        end
    end
  else if in_tu c && (tag =? "tuv")%string then
    match event with
    | ev_end =>
        let lang := get elem xml_lang (get elem "lang" "") in
        let text := _get_seg_text elem in
        if (lang =? "en")%string then
          Continue {| pairs := pairs c; in_tu := in_tu c;
                      en_text := Some text; fr_text := fr_text c |}
        else if (lang =? "fr")%string then
          Continue {| pairs := pairs c; in_tu := in_tu c;
                      en_text := en_text c; fr_text := Some text |}
        else Continue c
    | ev_start => Continue c
    end
  else Continue c.

(** The [for] loop over the events, left by [break]. *)
Fixpoint run (max_tu : Z) (evs : list (event * Element)) (c : Cursor) : flow :=
  match evs with
  | [] => Continue c
  | ev :: rest =>
      match loop_body max_tu c ev with
      | Continue c' => run max_tu rest c'
      | Break c' => Break c'
      end
  end.

Definition cursor_of (f : flow) : Cursor :=
  match f with
  | Continue c => c
  | Break c => c
  end.

Definition load_events (evs : list (event * Element)) (max_tu : Z) : list Pair :=
  pairs (cursor_of (run max_tu evs init)).

Definition load_tmx_subset_robust (doc : Element) (max_tu : Z) : list Pair :=
  load_events (iterparse doc) max_tu.
End Loader.

(** ** Records of a document

    What the loader is meant to collect, read off the tree: the
    translation units of the document in document order, and for each the
    variants of a language in the order in which their end tags are read. *)

Definition is_tu (e : Element) : bool := (local_tag e =? "tu")%string.
Definition is_tuv (e : Element) : bool := (local_tag e =? "tuv")%string.

(** The language of a variant: the qualified attribute, else the bare one. *)
Definition lang_of (elem : Element) : str :=
  get elem xml_lang (get elem "lang" "").

Fixpoint has_tu (e : Element) : bool :=
  is_tu e || existsb has_tu (children e).

(** No translation unit lies inside another one. *)
Fixpoint flat (e : Element) : bool :=
  if is_tu e then negb (existsb has_tu (children e))
  else forallb flat (children e).

(** The outermost translation units, in document order. *)
Fixpoint records (e : Element) : list Element :=
  if is_tu e then [e] else flat_map records (children e).

(** The element and its descendants in the order of their end tags. *)
Fixpoint closing (e : Element) : list Element :=
  flat_map closing (children e) ++ [e].

Definition is_variant (lang : str) (v : Element) : bool :=
  is_tuv v && (lang_of v =? lang)%string.

(** The variants of [lang] inside the record [r]. *)
Definition variants (lang : str) (r : Element) : list Element :=
  filter (is_variant lang) (flat_map closing (children r)).

Definition last_opt {A} (l : list A) : option A :=
  last (map Some l) None.

Section Records.
Context {T : CharTable}.

(** The text a closed record holds for [lang], if any. *)
Definition slot (lang : str) (r : Element) : option str :=
  option_map _get_seg_text (last_opt (variants lang r)).

(** The slot of [lang] after the end tags of [vs] have been read, [old]
    being its content before. *)
Definition fill (lang : str) (vs : list Element) (old : option str)
  : option str :=
  match last_opt (filter (is_variant lang) vs) with
  | Some v => Some (_get_seg_text v)
  | None => old
  end.

Definition pair_of_record (r : Element) : option Pair :=
  match slot "en" r, slot "fr" r with
  | Some en, Some fr => Some (en, fr)
  | _, _ => None
  end.

Definition opt_list {A} (o : option A) : list A :=
  match o with
  | Some a => [a]
  | None => []
  end.

(** The pairs of the qualifying records of a document. *)
Definition qualifying (doc : Element) : list Pair :=
  flat_map (fun r => opt_list (pair_of_record r)) (records doc).

(** One turn of the loop with the cap out of reach, and the loop run
    to the end of the input. *)
Definition advance (c : Cursor) (ev : event * Element) : Cursor :=
  cursor_of (loop_body (Z.of_nat (List.length (pairs c)) + 2) c ev).

Definition scan (evs : list (event * Element)) (c : Cursor) : Cursor :=
  fold_left advance evs c.
End Records.

(** ** Printing and exceptions

    A function that prints and may raise returns what it has printed and
    either the exception or its value.  A printed line keeps the parts of
    its f-string: the literal text and the values with their format
    specifications. *)

Inductive exn := ZeroDivisionError | ValueError | IndexError.

Inductive piece :=
| Lit (s : str)
| Int (fmt : str) (z : Z)
| Float (fmt : str) (q : Q)
| Text (s : str)
| Words (l : list str).

Definition line : Type := list piece.

Definition Py (A : Type) : Type := list line * (exn + A).

Definition ret {A} (a : A) : Py A := ([], inr a).
Definition raise {A} (e : exn) : Py A := ([], inl e).
Definition print (l : line) : Py unit := ([l], inr tt).

Definition bind {A B} (m : Py A) (f : A -> Py B) : Py B :=
  match snd m with
  | inl e => (fst m, inl e)
  | inr a => (fst m ++ fst (f a), snd (f a))
  end.

Notation "x <- m ;; k" := (bind m (fun x => k))
  (at level 61, m at next level, right associativity).
Notation "m ;;; k" := (bind m (fun _ => k))
  (at level 61, right associativity).

(** A [for] loop whose body prints. *)
Fixpoint for_each {A} (l : list A) (body : A -> Py unit) : Py unit :=
  match l with
  | [] => ret tt
  | a :: l' => body a ;;; for_each l' body
  end.

Definition nl : str := String (ascii_of_nat 10) EmptyString.

(** [a / b] on two [int]s and on a [float] and an [int]; [a // b]. *)
Definition truediv (a b : Z) : Py Q :=
  if b =? 0 then raise ZeroDivisionError
  else ret (inject_Z a / inject_Z b)%Q.

Definition truediv_float (a : Q) (b : Z) : Py Q :=
  if b =? 0 then raise ZeroDivisionError
  else ret (a / inject_Z b)%Q.

Definition floordiv (a b : Z) : Py Z :=
  if b =? 0 then raise ZeroDivisionError else ret (a / b).

(** [sum], [min], [max] of a list of [int]s; [sum] of a list of [float]s. *)
Definition sum (l : list Z) : Z := fold_left Z.add l 0.

Definition sum_float (l : list Q) : Q := fold_left Qplus l (inject_Z 0).

Definition py_min (l : list Z) : Py Z :=
  match l with
  | [] => raise ValueError
  | x :: xs => ret (fold_left Z.min xs x)
  end.

Definition py_max (l : list Z) : Py Z :=
  match l with
  | [] => raise ValueError
  | x :: xs => ret (fold_left Z.max xs x)
  end.

(** [range(k)] *)
Definition range (k : Z) : list Z :=
  map Z.of_nat (seq 0 (Z.to_nat k)).

(** [sorted(l, key=...)] and [l.sort(key=..., reverse=True)]: a stable
    sort, [le a b] comparing the keys of [a] and [b]. *)
Fixpoint insert_by {A} (le : A -> A -> bool) (x : A) (l : list A) : list A :=
  match l with
  | [] => [x]
  | y :: l' => if le x y then x :: l else y :: insert_by le x l'
  end.

Definition sorted_by {A} (le : A -> A -> bool) (l : list A) : list A :=
  fold_right (insert_by le) [] l.

(** A [dict], and a [defaultdict(int)], in insertion order. *)
Definition dict (K V : Type) : Type := list (K * V).

Fixpoint incr {K} (eqb : K -> K -> bool) (k : K) (d : dict K Z) : dict K Z :=
  match d with
  | [] => [(k, 1)]
  | (k', v) :: d' =>
      if eqb k k' then (k', v + 1) :: d' else (k', v) :: incr eqb k d'
  end.

Fixpoint lookup {K} (eqb : K -> K -> bool) (k : K) (d : dict K Z) : Z :=
  match d with
  | [] => 0
  | (k', v) :: d' => if eqb k k' then v else lookup eqb k d'
  end.

Inductive num := NInt (z : Z) | NFloat (q : Q).

Definition is_nil {A} (l : list A) : bool :=
  match l with
  | [] => true
  | _ :: _ => false
  end.

(** ** The analyses *)

Section Analyses.
Context {T : CharTable}.

Definition basic_stats (pairs : list Pair) : Py (dict str num) :=
  if is_nil pairs then
    print [Lit "No pairs loaded."] ;;;
    ret []
  else
    let n := Z.of_nat (List.length pairs) in
    let en_lens := map (fun p => len (fst p)) pairs in
    let fr_lens := map (fun p => len (snd p)) pairs in
    let en_words := map (fun p => word_count (fst p)) pairs in
    let fr_words := map (fun p => word_count (snd p)) pairs in
    en_char_mean <- truediv (sum en_lens) n ;;
    fr_char_mean <- truediv (sum fr_lens) n ;;
    en_word_mean <- truediv (sum en_words) n ;;
    fr_word_mean <- truediv (sum fr_words) n ;;
    en_char_min <- py_min en_lens ;;
    en_char_max <- py_max en_lens ;;
    fr_char_min <- py_min fr_lens ;;
    fr_char_max <- py_max fr_lens ;;
    let stats :=
      [("n_pairs", NInt n);
       ("en_char_mean", NFloat en_char_mean);
       ("fr_char_mean", NFloat fr_char_mean);
       ("en_word_mean", NFloat en_word_mean);
       ("fr_word_mean", NFloat fr_word_mean);
       ("en_char_min", NInt en_char_min);
       ("en_char_max", NInt en_char_max);
       ("fr_char_min", NInt fr_char_min);
       ("fr_char_max", NInt fr_char_max)] in
    print [Lit "=== Basic statistics ==="] ;;;
    print [Lit "Number of sentence pairs: "; Int "," n] ;;;
    print [Lit "English — chars: mean="; Float ".1f" en_char_mean;
           Lit ", min="; Int "" en_char_min; Lit ", max="; Int "" en_char_max] ;;;
    print [Lit "French  — chars: mean="; Float ".1f" fr_char_mean;
           Lit ", min="; Int "" fr_char_min; Lit ", max="; Int "" fr_char_max] ;;;
    print [Lit "English — words/sent: mean="; Float ".1f" en_word_mean] ;;;
    print [Lit "French  — words/sent: mean="; Float ".1f" fr_word_mean] ;;;
    ret stats.

(** The two ratio series after the loop over the pairs. *)
Definition ratios_step (acc : list Q * list Q) (p : Pair) : list Q * list Q :=
  let (ratios_char, ratios_word) := acc in
  let (en, fr) := p in
  let l_en := len en in
  let l_fr := len fr in
  let w_en := word_count en in
  let w_fr := word_count fr in
  let ratios_char :=
    if l_en >? 0 then ratios_char ++ [(inject_Z l_fr / inject_Z l_en)%Q]
    else ratios_char in
  let ratios_word :=
    if w_en >? 0 then ratios_word ++ [(inject_Z w_fr / inject_Z w_en)%Q]
    else ratios_word in
  (ratios_char, ratios_word).

Definition ratio_series (pairs : list Pair) : list Q * list Q :=
  fold_left ratios_step pairs ([], []).

Definition length_ratios (pairs : list Pair) (top_k : Z)
  : Py (option (dict str Q)) :=
  if is_nil pairs then ret None
  else
    let (ratios_char, ratios_word) := ratio_series pairs in
    let n := Z.of_nat (List.length ratios_char) in
    mean_rc <- truediv_float (sum_float ratios_char) n ;;
    mean_rw <- truediv_float (sum_float ratios_word) n ;;
    print [Lit (nl ++ "=== Length ratios (FR/EN) ===")%string] ;;;
    print [Lit "By character: mean="; Float ".3f" mean_rc] ;;;
    print [Lit "By word:      mean="; Float ".3f" mean_rw] ;;;
    let min_en_len := 20 in
    let with_ratio :=
      map (fun p => (p, (inject_Z (len (snd p)) / inject_Z (len (fst p)))%Q))
          (filter (fun p => len (fst p) >=? min_en_len) pairs) in
    let with_ratio :=
      sorted_by (fun x y => Qle_bool (snd y) (snd x)) with_ratio in
    print [Lit (nl ++ "Top ")%string; Int "" top_k;
           Lit " pairs with highest FR/EN char ratio (EN length >= ";
           Int "" min_en_len; Lit "):"] ;;;
    for_each (slice_to top_k with_ratio) (fun x =>
      let '((en, fr), r) := x in
      print [Lit "  "; Float ".2f" r; Lit "  en["; Int "" (len en);
             Lit "] fr["; Int "" (len fr); Lit "]  en: ";
             Text (str_slice_to 60 en); Lit "..."]) ;;;
    ret (Some [("mean_ratio_char", mean_rc); ("mean_ratio_word", mean_rw)]).

(** The width of a bucket, the bucket of a word count, the buckets of a
    side, and the line printed for a bucket. *)
Definition bucket_size (max_w num_buckets : Z) : Py Z :=
  q <- floordiv (max_w + num_buckets - 1) num_buckets ;;
  ret (Z.max 1 q).

Definition bucket_of (w size num_buckets : Z) : Z :=
  Z.min (w / size) (num_buckets - 1).

Definition fill_buckets (words : list Z) (size num_buckets : Z) : dict Z Z :=
  fold_left (fun d w => incr Z.eqb (bucket_of w size num_buckets) d) words [].

Definition bucket_lo (b size : Z) : Z := b * size.

Definition bucket_hi (b size num_buckets max_w : Z) : Z :=
  if b <? num_buckets - 1 then (b + 1) * size - 1 else max_w.

Definition print_buckets (buckets : dict Z Z) (size num_buckets max_w : Z)
  : Py unit :=
  for_each (sorted_by Z.leb (map fst buckets)) (fun b =>
    let lo := bucket_lo b size in
    let hi := bucket_hi b size num_buckets max_w in
    print [Lit "  ["; Int "3d" lo; Lit "-"; Int "3d" hi; Lit "]: ";
           Int "," (lookup Z.eqb b buckets)]).

Definition sentence_length_distribution (pairs : list Pair) (num_buckets : Z)
  : Py unit :=
  if is_nil pairs then ret tt
  else
    let en_words := map (fun p => word_count (fst p)) pairs in
    let fr_words := map (fun p => word_count (snd p)) pairs in
    max_en <- py_max en_words ;;
    max_fr <- py_max fr_words ;;
    bucket_size_en <- bucket_size max_en num_buckets ;;
    bucket_size_fr <- bucket_size max_fr num_buckets ;;
    let buckets_en := fill_buckets en_words bucket_size_en num_buckets in
    let buckets_fr := fill_buckets fr_words bucket_size_fr num_buckets in
    print [Lit (nl ++ "=== Sentence length (words) distribution ===")%string] ;;;
    print [Lit "English (bucket = word count range):"] ;;;
    print_buckets buckets_en bucket_size_en num_buckets max_en ;;;
    print [Lit "French:"] ;;;
    print_buckets buckets_fr bucket_size_fr num_buckets max_fr.

(** [pairs[idx]] *)
Definition getitem (pairs : list Pair) (idx : Z) : Py Pair :=
  let n := Z.of_nat (List.length pairs) in
  let i := if idx <? 0 then idx + n else idx in
  if (i <? 0) || (i >=? n) then raise IndexError
  else match nth_error pairs (Z.to_nat i) with
       | Some p => ret p
       | None => raise IndexError
       end.

(** The loop over [enumerate(indices)], left by [break]. *)
Fixpoint sample_loop (pairs : list Pair) (i : Z) (indices : list Z) : Py unit :=
  match indices with
  | [] => ret tt
  | idx :: rest =>
      if idx >=? Z.of_nat (List.length pairs) then ret tt
      else
        p <- getitem pairs idx ;;
        let (en, fr) := p in
        print [Lit "--- Pair "; Int "" (i + 1); Lit " (index "; Int "" idx;
               Lit ") ---"] ;;;
        print [Lit "EN: "; Text (str_slice_to 200 en);
               Lit (if len en >? 200 then "..." else "")] ;;;
        print [Lit "FR: "; Text (str_slice_to 200 fr);
               Lit (if len fr >? 200 then "..." else "")] ;;;
        print [] ;;;
        sample_loop pairs (i + 1) rest
  end.

Definition sample_pairs (pairs : list Pair) (k : Z) (indices : option (list Z))
  : Py unit :=
  if is_nil pairs then ret tt
  else
    let n := Z.of_nat (List.length pairs) in
    indices <- match indices with
               | None =>
                   q <- floordiv n (k + 1) ;;
                   let step := Z.max 1 q in
                   ret (map (fun i => i * step) (range k))
               | Some l => ret l
               end ;;
    print [Lit (nl ++ "=== Sample pairs ===")%string] ;;;
    sample_loop pairs 0 indices.

(** The tokens of a side, the frequency of each token in the order in
    which the tokens are first met, and the top of a frequency table. *)
Definition tokens (side : Pair -> str) (pairs : list Pair) : list str :=
  flat_map (fun p => finditer_words (lower (side p))) pairs.

Definition count_tokens (toks : list str) : dict str Z :=
  fold_left (fun d w => incr String.eqb w d) toks [].

Definition top_words (freq : dict str Z) (top_n : Z) : list (str * Z) :=
  slice_to top_n (sorted_by (fun x y => - snd x <=? - snd y) freq).

Definition vocabulary_trends (pairs : list Pair) (top_n : Z)
  : Py (option (dict str (list (str * Z)))) :=
  if is_nil pairs then ret None
  else
    let en_freq := count_tokens (tokens fst pairs) in
    let fr_freq := count_tokens (tokens snd pairs) in
    let en_top := top_words en_freq top_n in
    let fr_top := top_words fr_freq top_n in
    print [Lit (nl ++ "=== Top words (subset) ===")%string] ;;;
    print [Lit "English:"; Words (map fst en_top)] ;;;
    print [Lit "French: "; Words (map fst fr_top)] ;;;
    ret (Some [("en_top", en_top); ("fr_top", fr_top)]).

Definition run_exploration (tmx_path : str) (doc : Element)
    (subset_size num_samples num_buckets top_words : Z) : Py (list Pair) :=
  print [Lit "Loading up to "; Int "," subset_size;
         Lit " translation units from "; Text tmx_path; Lit "..."] ;;;
  let pairs := load_tmx_subset_robust doc subset_size in
  print [Lit "Loaded "; Int "," (Z.of_nat (List.length pairs));
         Lit (" pairs." ++ nl)%string] ;;;
  basic_stats pairs ;;;
  length_ratios pairs 5 ;;;
  sentence_length_distribution pairs num_buckets ;;;
  vocabulary_trends pairs top_words ;;;
  sample_pairs pairs num_samples None ;;;
  ret pairs.
End Analyses.

(** ** Reference notions for the analyses *)

(** The arithmetic mean of a series: its sum over its own number of
    elements. *)
Definition mean (l : list Q) : Q :=
  (sum_float l / inject_Z (Z.of_nat (List.length l)))%Q.

(** [ceil(a / b)] *)
Definition ceil_div (a b : Z) : Z := - ((- a) / b).

(** [a] stands in [l] at a place before a place of [b]. *)
Fixpoint before {A} (a b : A) (l : list A) : Prop :=
  match l with
  | [] => False
  | x :: l' => (x = a /\ In b l') \/ before a b l'
  end.

(** In the stream [toks] the token [a] is met for the first time before
    the token [b] is. *)
Definition first_before (a b : str) (toks : list str) : Prop :=
  a <> b /\ exists pre post,
    toks = pre ++ a :: post /\ ~ In a pre /\ ~ In b pre /\ In b post.

(** The distinct elements of a list in the order in which they are first
    met. *)
Fixpoint dedup {K} (eqb : K -> K -> bool) (l : list K) : list K :=
  match l with
  | [] => []
  | k :: l' => k :: filter (fun x => negb (eqb x k)) (dedup eqb l')
  end.

(** What is claimed of the buckets of one side: [max_w] is the greatest
    word count, [size] the width. *)
Definition bucketing (num_buckets : Z) (words : list Z) (max_w size : Z) : Prop :=
  (In max_w words /\ Forall (fun w => w <= max_w) words)
  /\ size = Z.max 1 (ceil_div max_w num_buckets)
  /\ (forall b, In b (map fst (fill_buckets words size num_buckets)) <->
                exists w, In w words /\ b = Z.min (w / size) (num_buckets - 1))
  /\ (forall b, In b (map fst (fill_buckets words size num_buckets)) ->
                0 <= b <= num_buckets - 1)
  /\ (forall b, lookup Z.eqb b (fill_buckets words size num_buckets) =
                Z.of_nat (List.length
                  (filter (fun w => b =? Z.min (w / size) (num_buckets - 1)) words)))
  /\ (forall w, In w words ->
                let b := bucket_of w size num_buckets in
                bucket_lo b size <= w <= bucket_hi b size num_buckets max_w)
  /\ bucket_hi (num_buckets - 1) size num_buckets max_w = max_w.

(** The loop [for k in ks: d[k] += 1] on a [defaultdict(int)]. *)
Definition count_all {K} (eqb : K -> K -> bool) (ks : list K) (d : dict K Z)
  : dict K Z :=
  fold_left (fun d k => incr eqb k d) ks d.

(** What is claimed of the top words [top] of a token stream [toks]: each
    word stands with the number of times it is met, the numbers descend,
    and among words met equally often the one first met stands first. *)
Definition ranked (toks : list str) (top : list (str * Z)) : Prop :=
  (forall w n, In (w, n) top ->
     In w toks /\ n = Z.of_nat (List.length (filter (String.eqb w) toks)))
  /\ (forall a b, before a b top ->
        snd b <= snd a
        /\ (snd a = snd b -> first_before (fst a) (fst b) toks)).

(** ** Sample documents and pair lists *)

Definition seg (s : str) : Element := mkElement "seg" [] (Some s) None [].

Definition tuv (lang : str) (kids : list Element) : Element :=
  mkElement "tuv" [(xml_lang, lang)] None None kids.

Definition tu (kids : list Element) : Element :=
  mkElement "tu" [] None None kids.

Definition tmx (units : list Element) : Element :=
  mkElement "tmx" [] None None [mkElement "body" [] None None units].

(** One unit with both languages. *)
Definition tu_hello : Element :=
  tu [tuv "en" [seg "Hello"]; tuv "fr" [seg "Bonjour"]].

(** The English variant has no segment. *)
Definition tu_no_seg : Element :=
  tu [tuv "en" []; tuv "fr" [seg "Bonjour"]].

(** Two English variants in one unit. *)
Definition tu_twice : Element :=
  tu [tuv "en" [seg "First"]; tuv "en" [seg "Second"]; tuv "fr" [seg "Bonjour"]].

(** A segment in a namespace, without and with an inline child. *)
Definition seg_ns (s : str) : Element :=
  mkElement "{urn:x}seg" [] (Some s) None [].

Definition seg_ns_inline (s t : str) : Element :=
  mkElement "{urn:x}seg" [] (Some s) None
    [mkElement "{urn:x}ph" [] None (Some t) []].

Definition seg_inline (s t : str) : Element :=
  mkElement "seg" [] (Some s) None [mkElement "ph" [] None (Some t) []].

(** The first source text is one blank. *)
Definition pairs_blank : list Pair := [(" ", "a"); ("a b", "c d")].

(** Both texts have five words in each pair but for the last target. *)
Definition pairs_five : list Pair :=
  [("a b c d e", "a b c d e"); ("a b c d f", "b")].

(** One pair whose texts have twenty-five words each. *)
Definition pairs_long : list Pair :=
  [("a a a a a a a a a a a a a a a a a a a a a a a a a",
    "b b b b b b b b b b b b b b b b b b b b b b b b b")].

(** Two words met twice each, the second of them first. *)
Definition pairs_tie : list Pair := [("b a a b c", "")].

Definition pairs_hello : list Pair := [("Hello, world! Hello?", "")].

(** ** Further reference notions *)

Section Edges.
Context {T : CharTable}.

(** The text does not begin, does not end, with white space. *)
Definition clean_start (s : str) : bool :=
  match s with
  | EmptyString => true
  | String c _ => negb (isspace c)
  end.

Fixpoint clean_end (s : str) : bool :=
  match s with
  | EmptyString => true
  | String c EmptyString => negb (isspace c)
  | String _ s' => clean_end s'
  end.

Definition stripped (s : str) : bool := clean_start s && clean_end s.
End Edges.

(** A document with variants but no translation unit around them. *)
Definition doc_no_unit : Element :=
  mkElement "tmx" [] None None
    [tuv "en" [seg "Hello"]; tuv "fr" [seg "Bonjour"]].

(** A variant with both language attributes, and one in upper case. *)
Definition tuv_both_attrs : Element :=
  mkElement "tuv" [("lang", "fr"); (xml_lang, "en")] None None [seg "Hello"].

Definition tuv_upper : Element :=
  mkElement "tuv" [(xml_lang, "EN")] None None [seg "Hello"].

(** A variant whose segment has an inline child with a text of its own. *)
Definition tuv_inline : Element :=
  tuv "en" [mkElement "seg" [] (Some "Hello ") None
              [mkElement "b" [] (Some "big") (Some " world") []]].

(** A unit whose texts are padded with blanks. *)
Definition tu_padded : Element :=
  tu [tuv "en" [seg "  Hello world "]; tuv "fr" [seg " Bonjour le monde"]].

Section CleanCursor.
Context {T : CharTable}.

Definition clean_slot (o : option str) : Prop :=
  match o with
  | Some s => stripped s = true
  | None => True
  end.

(** Every text the cursor holds is stripped. *)
Definition clean_cursor (c : Cursor) : Prop :=
  Forall (fun p : Pair => stripped (fst p) = true /\ stripped (snd p) = true)
         (pairs c)
  /\ clean_slot (en_text c) /\ clean_slot (fr_text c).
End CleanCursor.

(** [len(fr) / len(en)] of a pair, and the line printed for a pair among
    the extremes. *)
Definition char_ratio (p : Pair) : Q :=
  (inject_Z (len (snd p)) / inject_Z (len (fst p)))%Q.

Definition extreme_line (x : Pair * Q) : line :=
  [Lit "  "; Float ".2f" (snd x); Lit "  en["; Int "" (len (fst (fst x)));
   Lit "] fr["; Int "" (len (snd (fst x))); Lit "]  en: ";
   Text (str_slice_to 60 (fst (fst x))); Lit "..."].

(** [mn] is the least and [mx] the greatest element of [l], and [m] its
    mean, which lies between them. *)
Definition extent (l : list Z) (mn mx : Z) (m : Q) : Prop :=
  In mn l /\ In mx l /\ Forall (fun x => mn <= x <= mx) l
  /\ m = (inject_Z (sum l) / inject_Z (Z.of_nat (List.length l)))%Q
  /\ (inject_Z mn <= m)%Q /\ (m <= inject_Z mx)%Q.

(** A long source with a short target, and the reverse. *)
Definition pairs_extremes : list Pair :=
  [("aaaaaaaaaaaaaaaaaaaa", "bb");
   ("short", "a much longer target text");
   ("cccccccccccccccccccc", "dddddddddddddddddddddddddddddd");
   ("eeeeeeeeeeeeeeeeeeee", "ff")].

(** The four lines printed for the sample of rank [i], at the index
    [idx], and the lines printed for a list of indices that are all in
    range. *)
Definition sample_lines (i idx : Z) (p : Pair) : list line :=
  [[Lit "--- Pair "; Int "" (i + 1); Lit " (index "; Int "" idx; Lit ") ---"];
   [Lit "EN: "; Text (str_slice_to 200 (fst p));
    Lit (if len (fst p) >? 200 then "..." else "")];
   [Lit "FR: "; Text (str_slice_to 200 (snd p));
    Lit (if len (snd p) >? 200 then "..." else "")];
   []].

Fixpoint show_samples (pairs : list Pair) (i : Z) (indices : list Z)
  : list line :=
  match indices with
  | [] => []
  | idx :: rest =>
      match nth_error pairs (Z.to_nat idx) with
      | Some p => sample_lines i idx p ++ show_samples pairs (i + 1) rest
      | None => []
      end
  end.

(** What holds of the size of the top list [top] of a token stream: no
    word twice; as many entries as the bound allows, a negative bound
    leaving out that many of the last entries; and, when no entry is left
    out, counts that add up to the number of tokens. *)
Definition top_size (toks : list str) (top_n : Z) (top : list (str * Z))
  : Prop :=
  let d := Z.of_nat (List.length (dedup String.eqb toks)) in
  NoDup (map fst top)
  /\ Z.of_nat (List.length top)
     = (if top_n <? 0 then Z.max 0 (d + top_n) else Z.min top_n d)
  /\ (d <= top_n -> sum (map snd top) = Z.of_nat (List.length toks)).

(** A document with no qualifying record. *)
Definition doc_one_language : Element :=
  tmx [tu [tuv "en" [seg "Hello"]]; tu [tuv "de" [seg "Hallo"]]].

Definition pairs_three : list Pair := [("a", "b"); ("c", "d"); ("e", "f")].

(** * Properties *)

Lemma append_empty (s : str) : (s ++ "")%string = s.
Proof. induction s as [|ch s IH]; simpl; [reflexivity | now rewrite IH]. Qed.

Lemma Element_tree_ind (P : Element -> Prop) :
  (forall t a tx tl cs, Forall P cs -> P (mkElement t a tx tl cs)) ->
  forall e, P e.
Proof.
  intros H. fix IH 1. intros [t a tx tl cs]. apply H.
  induction cs as [|c cs IHcs]; constructor; [apply IH | exact IHcs].
Qed.

Section LoaderFacts.
Context {T : CharTable}.

Lemma run_app cap evs1 evs2 c :
  run cap (evs1 ++ evs2) c =
  match run cap evs1 c with
  | Continue c' => run cap evs2 c'
  | Break c' => Break c'
  end.
Proof.
  revert c. induction evs1 as [|ev evs1 IH]; intros c; simpl; [reflexivity|].
  destruct (loop_body cap c ev); [apply IH | reflexivity].
Qed.

Lemma cap_out_of_reach (n : nat) :
  (Z.of_nat (n + 1) >=? Z.of_nat n + 2) = false.
Proof. rewrite Z.geb_leb. apply Z.leb_gt. lia. Qed.

(** A turn of the loop either leaves the collection alone or appends one
    pair; the cap only decides whether the loop is left afterwards. *)
Lemma loop_body_cases cap c ev :
  (pairs (advance c ev) = pairs c /\ loop_body cap c ev = Continue (advance c ev))
  \/ (exists p, pairs (advance c ev) = pairs c ++ [p]
       /\ if Z.of_nat (List.length (pairs c)) + 1 >=? cap
          then exists cb, loop_body cap c ev = Break cb
                          /\ pairs cb = pairs (advance c ev)
          else loop_body cap c ev = Continue (advance c ev)).
Proof.
  unfold advance, loop_body. destruct ev as [e elem].
  destruct (local_tag elem =? "tu")%string.
  - destruct e; [left; split; reflexivity|].
    destruct (en_text c) as [en|]; [|left; split; reflexivity].
    destruct (fr_text c) as [fr|]; [|left; split; reflexivity].
    right. exists (en, fr).
    rewrite !length_app. simpl List.length. rewrite cap_out_of_reach.
    replace (Z.of_nat (List.length (pairs c) + 1)) with
      (Z.of_nat (List.length (pairs c)) + 1) by lia.
    split; [reflexivity|].
    destruct (Z.of_nat (List.length (pairs c)) + 1 >=? cap).
    + eexists. split; reflexivity.
    + reflexivity.
  - destruct (in_tu c && (local_tag elem =? "tuv")%string);
      [|left; split; reflexivity].
    destruct e; [left; split; reflexivity|].
    destruct (lang_of elem =? "en")%string eqn:E1; unfold lang_of in E1;
      rewrite E1; [left; split; reflexivity|].
    destruct (lang_of elem =? "fr")%string eqn:E2; unfold lang_of in E2;
      rewrite E2; left; split; reflexivity.
Qed.

Lemma advance_pairs c ev : exists l, pairs (advance c ev) = pairs c ++ l.
Proof.
  destruct (loop_body_cases 0 c ev) as [[H _]|[p [H _]]].
  - exists []. rewrite app_nil_r. exact H.
  - exists [p]. exact H.
Qed.

Lemma scan_pairs evs : forall c, exists l, pairs (scan evs c) = pairs c ++ l.
Proof.
  induction evs as [|ev evs IH]; intros c; simpl.
  - exists []. now rewrite app_nil_r.
  - destruct (IH (advance c ev)) as [l Hl].
    destruct (advance_pairs c ev) as [l' Hl'].
    exists (l' ++ l). rewrite Hl, Hl'. now rewrite app_assoc.
Qed.

(** With room left under the cap, the loader returns the first [cap]
    pairs of the run to the end of the input. *)
Lemma run_firstn cap evs : forall c,
  Z.of_nat (List.length (pairs c)) < cap ->
  pairs (cursor_of (run cap evs c)) =
  firstn (Z.to_nat cap) (pairs (scan evs c)).
Proof.
  induction evs as [|ev evs IH]; intros c Hc; simpl.
  - rewrite firstn_all2; [reflexivity|lia].
  - destruct (loop_body_cases cap c ev) as [[Hp Hb]|[p [Hp Hb]]].
    + rewrite Hb. apply IH. rewrite Hp. exact Hc.
    + destruct (Z.of_nat (List.length (pairs c)) + 1 >=? cap) eqn:E.
      * destruct Hb as [cb [Hb Hcb]]. rewrite Hb. simpl.
        destruct (scan_pairs evs (advance c ev)) as [l Hl].
        rewrite Hl, Hcb.
        rewrite firstn_app.
        assert (Hlen : List.length (pairs (advance c ev)) = Z.to_nat cap).
        { rewrite Hp, length_app. simpl. lia. }
        rewrite Hlen, Nat.sub_diag, firstn_O, app_nil_r.
        rewrite <- Hlen, firstn_all. reflexivity.
      * rewrite Hb. apply IH. rewrite Hp, length_app. simpl. lia.
Qed.

Lemma last_opt_app {A} (l1 l2 : list A) :
  last_opt (l1 ++ l2) =
  match last_opt l2 with
  | Some x => Some x
  | None => last_opt l1
  end.
Proof.
  unfold last_opt. induction l2 as [|x l2 IH] using rev_ind.
  - now rewrite app_nil_r.
  - rewrite app_assoc, !map_app. simpl. now rewrite !last_last.
Qed.

Lemma fill_app lang l1 l2 old :
  fill lang (l1 ++ l2) old = fill lang l2 (fill lang l1 old).
Proof.
  unfold fill. rewrite filter_app, last_opt_app.
  destruct (last_opt (filter (is_variant lang) l2)); reflexivity.
Qed.

Lemma slot_fill lang r :
  slot lang r = fill lang (flat_map closing (children r)) None.
Proof.
  unfold slot, fill, variants.
  destruct (last_opt _); reflexivity.
Qed.

Lemma scan_app evs1 evs2 c : scan (evs1 ++ evs2) c = scan evs2 (scan evs1 c).
Proof. apply fold_left_app. Qed.

Lemma has_tu_children t a tx tl cs :
  has_tu (mkElement t a tx tl cs) = false ->
  is_tu (mkElement t a tx tl cs) = false /\ Forall (fun c => has_tu c = false) cs.
Proof.
  simpl. intros H. apply orb_false_iff in H. destruct H as [H1 H2].
  split; [exact H1|]. apply Forall_forall. intros x Hx.
  destruct (has_tu x) eqn:E; [|reflexivity].
  rewrite <- H2. symmetry. apply existsb_exists. eauto.
Qed.

Lemma scan_single ev c : scan [ev] c = advance c ev.
Proof. reflexivity. Qed.

(** What the start tag and the end tag of an element that is no
    translation unit do to the cursor. *)
Lemma advance_start_other e c :
  is_tu e = false -> advance c (ev_start, e) = c.
Proof.
  unfold advance, loop_body, is_tu. intros ->.
  destruct (in_tu c && _); reflexivity.
Qed.

Lemma advance_end_outside e c :
  is_tu e = false -> in_tu c = false -> advance c (ev_end, e) = c.
Proof.
  unfold advance, loop_body, is_tu. intros -> ->. reflexivity.
Qed.

Lemma advance_end_inside e c :
  is_tu e = false -> in_tu c = true ->
  advance c (ev_end, e) =
  mkCursor (pairs c) true (fill "en" [e] (en_text c)) (fill "fr" [e] (fr_text c)).
Proof.
  unfold advance, loop_body, is_tu, fill, is_variant, is_tuv, lang_of.
  intros -> Hin. rewrite Hin. simpl filter.
  destruct (local_tag e =? "tuv")%string; simpl.
  - destruct (get e xml_lang (get e "lang" "") =? "en")%string eqn:E1.
    + apply String.eqb_eq in E1. rewrite E1. simpl. now rewrite <- Hin.
    + destruct (get e xml_lang (get e "lang" "") =? "fr")%string eqn:E2;
        simpl; destruct c; simpl in *; now subst.
  - destruct c; simpl in *; now subst.
Qed.

(** Inside a translation unit: the events of an element with no
    translation unit below it only fill the two slots. *)
Lemma scan_inside e :
  has_tu e = false -> forall c, in_tu c = true ->
  scan (iterparse e) c =
  mkCursor (pairs c) true (fill "en" (closing e) (en_text c))
           (fill "fr" (closing e) (fr_text c)).
Proof.
  induction e as [t a tx tl cs IH] using Element_tree_ind.
  intros Hno c Hin. apply has_tu_children in Hno. destruct Hno as [Hself Hcs].
  simpl iterparse. simpl closing.
  change ((ev_start, mkElement t a tx tl cs)
            :: flat_map iterparse cs ++ [(ev_end, mkElement t a tx tl cs)])
    with ([(ev_start, mkElement t a tx tl cs)]
            ++ flat_map iterparse cs ++ [(ev_end, mkElement t a tx tl cs)]).
  rewrite !scan_app, !scan_single. rewrite advance_start_other by exact Hself.
  assert (Hkids : forall c0, in_tu c0 = true ->
            scan (flat_map iterparse cs) c0 =
            mkCursor (pairs c0) true
              (fill "en" (flat_map closing cs) (en_text c0))
              (fill "fr" (flat_map closing cs) (fr_text c0))).
  { clear Hself c Hin. induction cs as [|k cs IHcs]; intros c0 H0.
    - simpl. destruct c0; simpl in *; now subst.
    - simpl. rewrite scan_app.
      inversion IH as [|? ? IHk IHrest]; subst.
      inversion Hcs as [|? ? Hk Hrest]; subst.
      rewrite (IHk Hk c0 H0).
      rewrite (IHcs IHrest Hrest) by reflexivity.
      simpl. now rewrite !fill_app. }
  rewrite (Hkids c Hin).
  rewrite advance_end_inside by (exact Hself || reflexivity).
  simpl. now rewrite !fill_app.
Qed.

Lemma existsb_false_Forall {A} (f : A -> bool) l :
  existsb f l = false -> Forall (fun x => f x = false) l.
Proof.
  induction l as [|x l IH]; simpl; intros H; constructor;
    apply orb_false_iff in H; destruct H; auto.
Qed.

Lemma scan_inside_list cs :
  Forall (fun k => has_tu k = false) cs ->
  forall c, in_tu c = true ->
  scan (flat_map iterparse cs) c =
  mkCursor (pairs c) true
    (fill "en" (flat_map closing cs) (en_text c))
    (fill "fr" (flat_map closing cs) (fr_text c)).
Proof.
  induction 1 as [|k cs Hk _ IH]; intros c Hin.
  - simpl. destruct c; simpl in *; now subst.
  - simpl. rewrite scan_app, (scan_inside k Hk c Hin).
    rewrite IH by reflexivity. simpl. now rewrite !fill_app.
Qed.

(** A translation unit with no translation unit inside it: whatever the
    cursor was, its events append the pair of the record, if it has one. *)
Lemma scan_record r :
  is_tu r = true -> existsb has_tu (children r) = false ->
  forall c,
  scan (iterparse r) c =
  mkCursor (pairs c ++ opt_list (pair_of_record r)) false
           (slot "en" r) (slot "fr" r).
Proof.
  intros Htu Hno c. destruct r as [t a tx tl cs]. simpl children in *.
  simpl iterparse.
  change ((ev_start, mkElement t a tx tl cs)
            :: flat_map iterparse cs ++ [(ev_end, mkElement t a tx tl cs)])
    with ([(ev_start, mkElement t a tx tl cs)]
            ++ flat_map iterparse cs ++ [(ev_end, mkElement t a tx tl cs)]).
  rewrite !scan_app.
  assert (Hs : scan [(ev_start, mkElement t a tx tl cs)] c =
               mkCursor (pairs c) true None None).
  { simpl. unfold advance, loop_body. unfold is_tu in Htu. now rewrite Htu. }
  rewrite Hs, scan_inside_list by (auto using existsb_false_Forall).
  simpl pairs. simpl en_text. simpl fr_text.
  unfold pair_of_record. rewrite !slot_fill. simpl children.
  simpl scan. unfold advance, loop_body. unfold is_tu in Htu. rewrite Htu.
  simpl en_text. simpl fr_text. simpl pairs.
  destruct (fill "en" (flat_map closing cs) None) as [en|]; [|simpl; now rewrite app_nil_r].
  destruct (fill "fr" (flat_map closing cs) None) as [fr|]; [|simpl; now rewrite app_nil_r].
  rewrite length_app. simpl List.length.
  now rewrite cap_out_of_reach.
Qed.

Lemma qualifying_children t a tx tl cs :
  is_tu (mkElement t a tx tl cs) = false ->
  qualifying (mkElement t a tx tl cs) = flat_map qualifying cs.
Proof.
  unfold qualifying. simpl records. intros ->.
  induction cs as [|k cs IH]; simpl; [reflexivity|].
  now rewrite flat_map_app, IH.
Qed.

(** Outside the translation units the loop only walks; a document in
    which no unit lies inside another yields the pairs of its records. *)
Lemma scan_outside e :
  flat e = true -> forall c, in_tu c = false ->
  pairs (scan (iterparse e) c) = pairs c ++ qualifying e
  /\ in_tu (scan (iterparse e) c) = false.
Proof.
  induction e as [t a tx tl cs IH] using Element_tree_ind.
  intros Hflat c Hout.
  destruct (is_tu (mkElement t a tx tl cs)) eqn:Htu.
  - simpl in Hflat. rewrite Htu in Hflat. apply negb_true_iff in Hflat.
    rewrite (scan_record _ Htu Hflat). simpl.
    unfold qualifying. simpl records. rewrite Htu. simpl.
    now rewrite app_nil_r.
  - simpl in Hflat. rewrite Htu in Hflat.
    rewrite (qualifying_children _ _ _ _ _ Htu).
    simpl iterparse.
    change ((ev_start, mkElement t a tx tl cs)
              :: flat_map iterparse cs ++ [(ev_end, mkElement t a tx tl cs)])
      with ([(ev_start, mkElement t a tx tl cs)]
              ++ flat_map iterparse cs ++ [(ev_end, mkElement t a tx tl cs)]).
    rewrite !scan_app, !scan_single.
    rewrite advance_start_other by exact Htu.
    assert (Hkids : forall c0, in_tu c0 = false ->
              pairs (scan (flat_map iterparse cs) c0)
              = pairs c0 ++ flat_map qualifying cs
              /\ in_tu (scan (flat_map iterparse cs) c0) = false).
    { clear Htu c Hout. induction cs as [|k cs IHcs]; intros c0 H0.
      - simpl. now rewrite app_nil_r.
      - simpl. rewrite scan_app.
        inversion IH as [|? ? IHk IHrest]; subst.
        simpl in Hflat. apply andb_true_iff in Hflat. destruct Hflat as [Hk Hrest].
        destruct (IHk Hk c0 H0) as [Hp Hi].
        destruct (IHcs IHrest Hrest _ Hi) as [Hp' Hi'].
        split; [|exact Hi']. rewrite Hp', Hp. now rewrite app_assoc. }
    destruct (Hkids c Hout) as [Hp Hi].
    rewrite advance_end_outside by assumption.
    now split.
Qed.

(** The loader on a document in which no unit lies inside another, with
    a cap of at least one: the first [max_tu] pairs of the qualifying
    records. *)
Lemma load_flat doc max_tu :
  flat doc = true -> 1 <= max_tu ->
  load_tmx_subset_robust doc max_tu =
  firstn (Z.to_nat max_tu) (qualifying doc).
Proof.
  intros Hflat Hcap. unfold load_tmx_subset_robust, load_events.
  rewrite run_firstn by (simpl; lia).
  destruct (scan_outside doc Hflat init eq_refl) as [Hp _].
  now rewrite Hp.
Qed.
End LoaderFacts.

Section LoaderClaims.
Context {T : CharTable}.

Lemma loop_body_no_tu_end cap c ev :
  is_tu (snd ev) = false -> loop_body cap c ev = Continue (advance c ev).
Proof.
  intros H. destruct (loop_body_cases cap c ev) as [[_ Hb]|[p [Hp _]]];
    [exact Hb|].
  exfalso. destruct ev as [e elem]. simpl in H.
  unfold advance, loop_body in Hp. unfold is_tu in H. rewrite H in Hp.
  assert (Hlen : List.length (pairs c ++ [p]) = List.length (pairs c))
    by (rewrite <- Hp;
        destruct (in_tu c && _); [destruct e|]; try reflexivity;
        destruct (_ =? "en")%string; [reflexivity|];
        destruct (_ =? "fr")%string; reflexivity).
  rewrite length_app in Hlen. simpl in Hlen. lia.
Qed.

Lemma run_no_tu cap evs :
  Forall (fun ev => is_tu (snd ev) = false) evs ->
  forall c, run cap evs c = Continue (scan evs c).
Proof.
  induction 1 as [|ev evs Hev _ IH]; intros c; simpl; [reflexivity|].
  rewrite (loop_body_no_tu_end cap c ev Hev). apply IH.
Qed.

Lemma iterparse_no_tu e :
  has_tu e = false ->
  Forall (fun ev => is_tu (snd ev) = false) (iterparse e).
Proof.
  induction e as [t a tx tl cs IH] using Element_tree_ind.
  intros Hno. apply has_tu_children in Hno. destruct Hno as [Hself Hcs].
  simpl iterparse. constructor; [exact Hself|].
  apply Forall_app. split; [|constructor; [exact Hself|constructor]].
  induction cs as [|k cs IHcs]; simpl; [constructor|].
  inversion IH; inversion Hcs; subst.
  apply Forall_app. split; auto.
Qed.

Lemma iterparse_list_no_tu cs :
  existsb has_tu cs = false ->
  Forall (fun ev => is_tu (snd ev) = false) (flat_map iterparse cs).
Proof.
  intros H. apply existsb_false_Forall in H.
  induction H as [|k cs Hk _ IH]; simpl; [constructor|].
  apply Forall_app. split; [now apply iterparse_no_tu | exact IH].
Qed.

(** The elements that [elem.clear()] empties are the closed translation
    units.  Once a unit has closed, [in_tu] is false until the next unit
    opens, so a variant with a unit below it is passed over when its end
    tag comes: no element that the loop reads has been emptied, and the
    call is left out of [loop_body]. *)
Lemma advance_in_tu_no_tu c ev :
  is_tu (snd ev) = false -> in_tu (advance c ev) = in_tu c.
Proof.
  destruct ev as [e elem]. simpl. unfold advance, loop_body, is_tu.
  intros ->. destruct (in_tu c && _); [destruct e|]; try reflexivity.
  destruct (_ =? "en")%string; [reflexivity|].
  destruct (_ =? "fr")%string; reflexivity.
Qed.

Lemma scan_in_tu_no_tu evs :
  Forall (fun ev => is_tu (snd ev) = false) evs ->
  forall c, in_tu (scan evs c) = in_tu c.
Proof.
  induction 1 as [|ev evs Hev _ IH]; intros c; simpl; [reflexivity|].
  now rewrite IH, advance_in_tu_no_tu.
Qed.

Lemma advance_tu_end c e :
  is_tu e = true -> in_tu (advance c (ev_end, e)) = false.
Proof.
  unfold advance, loop_body, is_tu. intros ->.
  destruct (en_text c); [|reflexivity]. destruct (fr_text c); [|reflexivity].
  rewrite length_app. simpl List.length. now rewrite cap_out_of_reach.
Qed.

Lemma scan_after_unit e :
  has_tu e = true -> forall c, in_tu (scan (iterparse e) c) = false.
Proof.
  induction e as [t a tx tl cs IH] using Element_tree_ind.
  intros Hhas c. simpl iterparse.
  change ((ev_start, mkElement t a tx tl cs)
            :: flat_map iterparse cs ++ [(ev_end, mkElement t a tx tl cs)])
    with ([(ev_start, mkElement t a tx tl cs)]
            ++ flat_map iterparse cs ++ [(ev_end, mkElement t a tx tl cs)]).
  rewrite !scan_app, !scan_single.
  destruct (is_tu (mkElement t a tx tl cs)) eqn:Htu;
    [now apply advance_tu_end|].
  rewrite advance_in_tu_no_tu by exact Htu.
  simpl in Hhas. rewrite Htu in Hhas. simpl in Hhas.
  generalize (advance c (ev_start, mkElement t a tx tl cs)). clear Htu c.
  induction cs as [|k cs IHcs]; intros c; [discriminate|].
  simpl. rewrite scan_app.
  inversion IH as [|? ? IHk IHrest]; subst.
  destruct (existsb has_tu cs) eqn:Hcs; [now apply IHcs|].
  rewrite scan_in_tu_no_tu by (now apply iterparse_list_no_tu).
  apply IHk. simpl in Hhas. now rewrite Hcs, orb_false_r in Hhas.
Qed.

Lemma variant_over_unit_passed v c :
  is_tu v = false -> existsb has_tu (children v) = true ->
  scan (iterparse v) c
  = scan ((ev_start, v) :: flat_map iterparse (children v)) c
  /\ in_tu (scan (iterparse v) c) = false.
Proof.
  intros Htu Hhas.
  assert (Hv : has_tu v = true)
    by (destruct v; simpl in *; now rewrite Hhas, orb_true_r).
  pose proof (scan_after_unit v Hv c) as Hout.
  split; [|exact Hout]. destruct v as [t a tx tl cs]. simpl children in *.
  simpl iterparse. rewrite app_comm_cons, scan_app, scan_single.
  apply advance_end_outside; [exact Htu|].
  rewrite <- (advance_in_tu_no_tu _ (ev_end, mkElement t a tx tl cs)) by exact Htu.
  rewrite <- scan_single, <- scan_app. exact Hout.
Qed.

(** The events of a record up to its end tag, under any cap: the loop
    goes on, the collection is untouched and each slot holds the text of
    the last variant of its language. *)
Lemma run_record_body r cap c :
  is_tu r = true -> existsb has_tu (children r) = false ->
  run cap ((ev_start, r) :: flat_map iterparse (children r)) c =
  Continue (mkCursor (pairs c) true (slot "en" r) (slot "fr" r)).
Proof.
  intros Htu Hno. cbn [run].
  assert (Hs : loop_body cap c (ev_start, r) =
               Continue (mkCursor (pairs c) true None None)).
  { unfold loop_body. unfold is_tu in Htu. now rewrite Htu. }
  rewrite Hs, run_no_tu by (now apply iterparse_list_no_tu).
  rewrite scan_inside_list by (auto using existsb_false_Forall).
  now rewrite !slot_fill.
Qed.

(** The events of a whole record, under any cap and from any cursor:
    the pair of the record is appended, if it has one. *)
Lemma run_record r cap c :
  is_tu r = true -> existsb has_tu (children r) = false ->
  pairs (cursor_of (run cap (iterparse r) c)) =
  pairs c ++ opt_list (pair_of_record r).
Proof.
  intros Htu Hno. destruct r as [t a tx tl cs].
  simpl iterparse. rewrite app_comm_cons, run_app.
  change cs with (children (mkElement t a tx tl cs)) at 2.
  rewrite (run_record_body _ cap c Htu Hno).
  cbn [run]. unfold loop_body, pair_of_record. unfold is_tu in Htu.
  rewrite Htu. simpl en_text. simpl fr_text. simpl pairs.
  destruct (slot "en" _) as [en|]; [|simpl; now rewrite app_nil_r].
  destruct (slot "fr" _) as [fr|]; [|simpl; now rewrite app_nil_r].
  destruct (_ >=? cap); reflexivity.
Qed.

Lemma last_opt_None {A} (l : list A) : last_opt l = None <-> l = [].
Proof.
  split; [|intros ->; reflexivity].
  destruct l as [|x l] using rev_ind; [reflexivity|].
  unfold last_opt. rewrite map_app. simpl. rewrite last_last. discriminate.
Qed.

Lemma loop_body_cap_le_1 cap c ev :
  cap <= 1 -> loop_body cap c ev = loop_body 1 c ev.
Proof.
  intros Hcap. unfold loop_body. destruct ev as [e elem].
  destruct (local_tag elem =? "tu")%string; [|reflexivity].
  destruct e; [reflexivity|].
  destruct (en_text c); [|reflexivity]. destruct (fr_text c); [|reflexivity].
  rewrite length_app. simpl List.length.
  replace (Z.of_nat (List.length (pairs c) + 1) >=? cap) with true
    by (symmetry; rewrite Z.geb_leb; apply Z.leb_le; lia).
  replace (Z.of_nat (List.length (pairs c) + 1) >=? 1) with true
    by (symmetry; rewrite Z.geb_leb; apply Z.leb_le; lia).
  reflexivity.
Qed.

Lemma run_cap_le_1 cap evs :
  cap <= 1 -> forall c, run cap evs c = run 1 evs c.
Proof.
  intros Hcap. induction evs as [|ev evs IH]; intros c; simpl; [reflexivity|].
  rewrite (loop_body_cap_le_1 cap c ev Hcap).
  destruct (loop_body 1 c ev); [apply IH | reflexivity].
Qed.

(** The cap is tested only after a pair has been appended: a cap of zero
    or less loads what a cap of one loads. *)
Lemma load_cap_le_1 doc max_tu :
  max_tu <= 1 ->
  load_tmx_subset_robust doc max_tu = load_tmx_subset_robust doc 1.
Proof.
  intros H. unfold load_tmx_subset_robust, load_events.
  now rewrite run_cap_le_1.
Qed.

(** For any stream of events and a cap of at least one the loader never
    returns more than [max_tu] pairs. *)
Lemma load_events_length evs max_tu :
  1 <= max_tu ->
  Z.of_nat (List.length (load_events evs max_tu)) <= max_tu.
Proof.
  intros H. unfold load_events. rewrite run_firstn by (simpl; lia).
  rewrite length_firstn. lia.
Qed.

(** The length of the result for a cap of at least one. *)
Lemma load_length doc max_tu :
  flat doc = true -> 1 <= max_tu ->
  Z.of_nat (List.length (load_tmx_subset_robust doc max_tu)) =
  Z.min max_tu (Z.of_nat (List.length (qualifying doc))).
Proof.
  intros Hflat Hcap. rewrite load_flat, length_firstn by assumption. lia.
Qed.


(** With a cap of zero or less the loader returns the pair of the first
    qualifying record: more pairs than the cap allows as soon as there is
    one. *)
Lemma load_nonpositive_cap doc max_tu :
  flat doc = true -> max_tu <= 0 ->
  load_tmx_subset_robust doc max_tu = firstn 1 (qualifying doc).
Proof.
  intros Hflat Hcap. rewrite load_cap_le_1 by lia.
  now rewrite load_flat by (exact Hflat || lia).
Qed.
End LoaderClaims.

(** Three units, none inside another, read with a cap of two and with a
    cap of five. *)
Lemma load_three_units :
  flat (tmx [tu_hello; tu_no_seg; tu_twice]) = true
  /\ qualifying (tmx [tu_hello; tu_no_seg; tu_twice])
     = [("Hello", "Bonjour"); ("", "Bonjour"); ("Second", "Bonjour")]
  /\ load_tmx_subset_robust (tmx [tu_hello; tu_no_seg; tu_twice]) 2
     = [("Hello", "Bonjour"); ("", "Bonjour")]
  /\ load_tmx_subset_robust (tmx [tu_hello; tu_no_seg; tu_twice]) 5
     = [("Hello", "Bonjour"); ("", "Bonjour"); ("Second", "Bonjour")].
Proof.
  split; [reflexivity|]. split; [vm_compute; reflexivity|].
  split; rewrite load_flat by (reflexivity || lia); vm_compute; reflexivity.
Qed.

(** C1. With a cap of zero the loader returns one pair as soon as the
    source has a qualifying record: the cap is compared with the length of
    the collection only after the pair has been appended.  The length of
    the result, one, exceeds the cap. *)
Theorem C1_cap_zero_loads_one_pair :
  load_tmx_subset_robust (tmx [tu_hello; tu_hello]) 0 = [("Hello", "Bonjour")]
  /\ Z.of_nat (List.length (load_tmx_subset_robust (tmx [tu_hello; tu_hello]) 0)) > 0.
Proof. split; vm_compute; reflexivity. Qed.

Section RecordClaims.
Context {T : CharTable}.


(** While a record is open, the end tag of a variant of a tracked
    language sets the slot of that language, whatever the slot held. *)
Lemma tuv_end_overwrites_en cap c v :
  in_tu c = true -> is_variant "en" v = true ->
  loop_body cap c (ev_end, v) =
  Continue (mkCursor (pairs c) true (Some (_get_seg_text v)) (fr_text c)).
Proof.
  unfold is_variant, is_tuv, lang_of, loop_body. intros Hin Hv.
  apply andb_true_iff in Hv. destruct Hv as [Htag Hlang].
  apply String.eqb_eq in Htag. rewrite Htag, Hin, Hlang. simpl.
  reflexivity.
Qed.

Lemma tuv_end_overwrites_fr cap c v :
  in_tu c = true -> is_variant "fr" v = true ->
  loop_body cap c (ev_end, v) =
  Continue (mkCursor (pairs c) true (en_text c) (Some (_get_seg_text v))).
Proof.
  unfold is_variant, is_tuv, lang_of, loop_body. intros Hin Hv.
  apply andb_true_iff in Hv. destruct Hv as [Htag Hlang].
  apply String.eqb_eq in Htag. apply String.eqb_eq in Hlang.
  rewrite Htag, Hin, Hlang. simpl. reflexivity.
Qed.

(** C3 (amended). For a translation unit with no translation unit inside
    it: the end tag of every variant of a tracked language stores the text
    of that variant in the slot of the language, whatever the slot held,
    so that when the end tag of the record is reached each slot holds the
    text of the last variant of its language. *)
Theorem C3_last_variant_overwrites r max_tu c :
  is_tu r = true -> existsb has_tu (children r) = false ->
  run max_tu ((ev_start, r) :: flat_map iterparse (children r)) c =
  Continue (mkCursor (pairs c) true
              (option_map _get_seg_text (last_opt (variants "en" r)))
              (option_map _get_seg_text (last_opt (variants "fr" r))))
  /\ (forall v c', In v (variants "en" r) -> in_tu c' = true ->
      en_text (cursor_of (loop_body max_tu c' (ev_end, v)))
      = Some (_get_seg_text v))
  /\ (forall v c', In v (variants "fr" r) -> in_tu c' = true ->
      fr_text (cursor_of (loop_body max_tu c' (ev_end, v)))
      = Some (_get_seg_text v)).
Proof.
  intros Htu Hno. split; [exact (run_record_body r max_tu c Htu Hno)|].
  split; intros v c' Hv Hin; apply filter_In in Hv; destruct Hv as [_ Hv].
  - now rewrite tuv_end_overwrites_en.
  - now rewrite tuv_end_overwrites_fr.
Qed.

(** C4. A segment in a namespace that has no inline child is found by
    the lookup by local name, counts as false for want of children, and
    is then missed by the lookup of the plain tag: the extractor returns
    the empty string whatever the text of the segment.  The same segment
    with a plain tag, or with an inline child, is extracted. *)
Theorem C4_namespaced_segment_is_lost (s t : str) :
  _get_seg_text (tuv "en" [seg_ns s]) = ""
  /\ _get_seg_text (tuv "en" [seg s]) = strip s
  /\ _get_seg_text (tuv "en" [seg_ns_inline s t]) = strip (s ++ t)%string
  /\ _get_seg_text (tuv "en" [seg_inline s t]) = strip (s ++ t)%string.
Proof.
  unfold _get_seg_text. simpl.
  rewrite !append_empty. repeat split; reflexivity.
Qed.
End RecordClaims.



Lemma C3_last_variant_overwrites_witness :
  is_tu tu_twice = true /\ existsb has_tu (children tu_twice) = false
  /\ run 10 ((ev_start, tu_twice) :: flat_map iterparse (children tu_twice)) init
     = Continue (mkCursor [] true (Some "Second") (Some "Bonjour")).
Proof.
  split; [reflexivity|]. split; [reflexivity|].
  destruct (C3_last_variant_overwrites tu_twice 10 init eq_refl eq_refl)
    as [H _].
  rewrite H. vm_compute. reflexivity.
Defined.

(** A unit inside a unit: the inner start tag empties the slots that the
    outer unit had filled, and the outer unit yields no pair. *)
Lemma nested_unit_resets_record :
  load_tmx_subset_robust
    (tmx [tu [tuv "en" [seg "Hello"]; tuv "fr" [seg "Bonjour"]; tu []]]) 10
  = [].
Proof. vm_compute. reflexivity. Qed.

(** The first English variant of the record carries "First"; the pair that
    is loaded carries the text of the second one. *)
Lemma C3_first_variant_is_replaced :
  hd_error (variants "en" tu_twice) = Some (tuv "en" [seg "First"])
  /\ _get_seg_text (tuv "en" [seg "First"]) = "First"
  /\ load_tmx_subset_robust (tmx [tu_twice]) 10 = [("Second", "Bonjour")].
Proof. repeat split; vm_compute; reflexivity. Qed.

(** ** Counting in a dictionary *)

Section Counting.
Context {K : Type} (eqb : K -> K -> bool).
Hypothesis eqb_eq : forall a b, eqb a b = true <-> a = b.

Lemma eqb_refl_K k : eqb k k = true.
Proof. now apply eqb_eq. Qed.

Lemma eqb_neq_K a b : eqb a b = false <-> a <> b.
Proof.
  split.
  - intros H E. apply eqb_eq in E. congruence.
  - intros H. destruct (eqb a b) eqn:E; [|reflexivity].
    apply eqb_eq in E. contradiction.
Qed.

Lemma incr_keys_in k d :
  In k (map fst d) -> map fst (incr eqb k d) = map fst d.
Proof.
  induction d as [|[k' v] d IH]; simpl; [tauto|]. intros H.
  destruct (eqb k k') eqn:E; simpl; [reflexivity|].
  f_equal. apply IH. destruct H as [H|H]; [|exact H].
  apply eqb_neq_K in E. congruence.
Qed.

Lemma incr_keys_notin k d :
  ~ In k (map fst d) -> map fst (incr eqb k d) = map fst d ++ [k].
Proof.
  induction d as [|[k' v] d IH]; simpl; [reflexivity|]. intros H.
  destruct (eqb k k') eqn:E; simpl.
  - apply eqb_eq in E. subst. tauto.
  - f_equal. apply IH. tauto.
Qed.

Lemma incr_lookup k k' d :
  lookup eqb k' (incr eqb k d) =
  if eqb k' k then lookup eqb k' d + 1 else lookup eqb k' d.
Proof.
  induction d as [|[k0 v] d IH]; simpl.
  - destruct (eqb k' k); reflexivity.
  - destruct (eqb k k0) eqn:E; simpl.
    + apply eqb_eq in E. subst k0. destruct (eqb k' k); reflexivity.
    + destruct (eqb k' k0) eqn:E'; [|exact IH].
      apply eqb_eq in E'. subst k0.
      destruct (eqb k' k) eqn:E''; [|reflexivity].
      apply eqb_eq in E''. subst. rewrite eqb_refl_K in E. discriminate.
Qed.

Lemma In_dec_K (k : K) (l : list K) : In k l \/ ~ In k l.
Proof.
  induction l as [|x l IH]; simpl; [tauto|].
  destruct (eqb x k) eqn:E.
  - apply eqb_eq in E. tauto.
  - apply eqb_neq_K in E. tauto.
Qed.

(** The value counted for a key: what was there, and one for each time
    the key is met. *)
Lemma count_all_lookup ks : forall d k,
  lookup eqb k (count_all eqb ks d) =
  lookup eqb k d + Z.of_nat (List.length (filter (eqb k) ks)).
Proof.
  unfold count_all.
  induction ks as [|x ks IH]; intros d k; simpl; [lia|].
  rewrite IH, incr_lookup. destruct (eqb k x); simpl List.length; lia.
Qed.

Lemma filter_filter_neg (l : list K) (seen : list K) k :
  In k seen ->
  filter (fun x => negb (existsb (eqb x) seen))
         (filter (fun x => negb (eqb x k)) l)
  = filter (fun x => negb (existsb (eqb x) seen)) l.
Proof.
  intros Hk. induction l as [|x l IH]; simpl; [reflexivity|].
  destruct (eqb x k) eqn:E; simpl.
  - apply eqb_eq in E. subst x.
    replace (existsb (eqb k) seen) with true; [exact IH|].
    symmetry. apply existsb_exists. exists k. split; [exact Hk|apply eqb_refl_K].
  - rewrite IH. reflexivity.
Qed.

Lemma filter_seen_snoc (l : list K) (seen : list K) k :
  filter (fun x => negb (existsb (eqb x) (seen ++ [k]))) l
  = filter (fun x => negb (existsb (eqb x) seen))
           (filter (fun x => negb (eqb x k)) l).
Proof.
  induction l as [|x l IH]; simpl; [reflexivity|].
  rewrite existsb_app. simpl. rewrite orb_false_r.
  destruct (eqb x k); simpl.
  - rewrite orb_true_r. simpl. exact IH.
  - rewrite orb_false_r. rewrite IH. reflexivity.
Qed.

Lemma existsb_In k l : existsb (eqb k) l = true <-> In k l.
Proof.
  rewrite existsb_exists. split.
  - intros [x [Hx E]]. apply eqb_eq in E. now subst.
  - intros H. exists k. split; [exact H|apply eqb_refl_K].
Qed.

(** The keys of the dictionary: those it had, then the new ones in the
    order in which they are first met. *)
Lemma count_all_keys ks : forall d,
  map fst (count_all eqb ks d) =
  map fst d ++ filter (fun x => negb (existsb (eqb x) (map fst d))) (dedup eqb ks).
Proof.
  unfold count_all.
  induction ks as [|k ks IH]; intros d; simpl.
  - now rewrite app_nil_r.
  - rewrite IH. destruct (In_dec_K k (map fst d)) as [Hin|Hout].
    + rewrite incr_keys_in by exact Hin.
      replace (existsb (eqb k) (map fst d)) with true
        by (symmetry; now apply existsb_In).
      simpl. now rewrite filter_filter_neg.
    + rewrite incr_keys_notin by exact Hout.
      replace (existsb (eqb k) (map fst d)) with false
        by (symmetry; apply not_true_is_false; now rewrite existsb_In).
      simpl. rewrite <- app_assoc. simpl. now rewrite filter_seen_snoc.
Qed.

Lemma count_keys ks : map fst (count_all eqb ks []) = dedup eqb ks.
Proof.
  rewrite count_all_keys. simpl.
  induction (dedup eqb ks) as [|x l IH]; simpl; [reflexivity|now rewrite IH].
Qed.

Lemma dedup_In ks k : In k (dedup eqb ks) <-> In k ks.
Proof.
  induction ks as [|x ks IH]; simpl; [tauto|].
  rewrite filter_In, IH, negb_true_iff, eqb_neq_K.
  destruct (In_dec_K k [x]) as [H|H]; simpl in H; intuition congruence.
Qed.

Lemma dedup_NoDup ks : NoDup (dedup eqb ks).
Proof.
  induction ks as [|x ks IH]; simpl; constructor.
  - rewrite filter_In, negb_true_iff, eqb_neq_K. tauto.
  - now apply NoDup_filter.
Qed.

Lemma lookup_In k v d :
  NoDup (map fst d) -> In (k, v) d -> lookup eqb k d = v.
Proof.
  induction d as [|[k' v'] d IH]; simpl; [tauto|].
  intros Hnd [H|H].
  - injection H as -> ->. now rewrite eqb_refl_K.
  - inversion Hnd as [|? ? Hk' Hd]; subst.
    destruct (eqb k k') eqn:E; [|now apply IH].
    apply eqb_eq in E. subst k'. exfalso. apply Hk'.
    apply in_map_iff. now exists (k, v).
Qed.
End Counting.

(** ** Order in a list *)

Section Order.
Context {A : Type}.

Lemma before_In (a b : A) l : before a b l -> In a l /\ In b l.
Proof.
  induction l as [|x l IH]; simpl; [tauto|].
  intros [[-> H]|H]; [tauto|]. apply IH in H. tauto.
Qed.

Lemma before_split (a b : A) l :
  before a b l <-> exists l1 l2 l3, l = l1 ++ a :: l2 ++ b :: l3.
Proof.
  split.
  - induction l as [|x l IH]; simpl; [tauto|].
    intros [[-> H]|H].
    + apply in_split in H. destruct H as [l2 [l3 ->]]. now exists [], l2, l3.
    + destruct (IH H) as [l1 [l2 [l3 ->]]]. now exists (x :: l1), l2, l3.
  - intros [l1 [l2 [l3 ->]]]. induction l1 as [|x l1 IH]; simpl.
    + left. split; [reflexivity|]. apply in_or_app. right. now left.
    + now right.
Qed.

Lemma before_filter (p : A -> bool) (a b : A) l :
  before a b (filter p l) -> before a b l /\ p a = true /\ p b = true.
Proof.
  induction l as [|x l IH]; simpl; [tauto|].
  destruct (p x) eqn:E; simpl.
  - intros [[-> H]|H].
    + apply filter_In in H. tauto.
    + apply IH in H. tauto.
  - intros H. apply IH in H. tauto.
Qed.

Lemma In_firstn n (a : A) l : In a (firstn n l) -> In a l.
Proof.
  revert l. induction n as [|n IH]; intros [|x l]; simpl; try tauto.
  intros [H|H]; [now left | right; now apply IH].
Qed.

Lemma before_firstn n (a b : A) l : before a b (firstn n l) -> before a b l.
Proof.
  revert l. induction n as [|n IH]; intros [|x l]; simpl; try tauto.
  intros [[-> H]|H].
  - left. split; [reflexivity|]. now apply In_firstn in H.
  - right. now apply IH.
Qed.

Lemma before_map {B} (f : A -> B) (a b : A) l :
  before a b l -> before (f a) (f b) (map f l).
Proof.
  induction l as [|x l IH]; simpl; [tauto|].
  intros [[-> H]|H]; [left|right; now apply IH].
  split; [reflexivity|now apply in_map].
Qed.
End Order.

(** ** The stable sort *)

Section StableSort.
Context {A : Type} (le : A -> A -> bool).
Hypothesis le_total : forall a b, le a b = true \/ le b a = true.
Hypothesis le_trans :
  forall a b c, le a b = true -> le b c = true -> le a c = true.

Lemma insert_by_In x z l : In z (insert_by le x l) <-> z = x \/ In z l.
Proof.
  induction l as [|y l IH]; simpl; [intuition congruence|].
  destruct (le x y); simpl; [intuition congruence|].
  rewrite IH. intuition congruence.
Qed.

Lemma sorted_by_In z l : In z (sorted_by le l) <-> In z l.
Proof.
  induction l as [|x l IH]; simpl; [tauto|].
  rewrite insert_by_In, IH. intuition congruence.
Qed.

Lemma insert_by_perm x l : Permutation (insert_by le x l) (x :: l).
Proof.
  induction l as [|y l IH]; simpl; [reflexivity|].
  destruct (le x y); [reflexivity|].
  rewrite IH. apply perm_swap.
Qed.

Lemma sorted_by_perm l : Permutation (sorted_by le l) l.
Proof.
  induction l as [|x l IH]; simpl; [constructor|].
  rewrite insert_by_perm. now constructor.
Qed.

(** Where two elements of a sorted list stand after [x] has been
    inserted. *)
Lemma insert_by_before x a b S :
  (forall u v, before u v S -> le u v = true) ->
  before a b (insert_by le x S) ->
  before a b S
  \/ (a = x /\ In b S /\ le x b = true)
  \/ (b = x /\ In a S /\ le x a = false).
Proof.
  induction S as [|y S IH]; intros Hs; simpl; [tauto|].
  destruct (le x y) eqn:E; simpl.
  - intros [[-> [Hb|Hb]]|H]; [| |tauto].
    + subst b. right. left. simpl. tauto.
    + right. left. repeat split; [simpl; tauto|].
      apply le_trans with y; [exact E|]. apply Hs. simpl. tauto.
  - intros [[-> Hb]|H].
    + apply insert_by_In in Hb. destruct Hb as [->|Hb].
      * right. right. simpl. tauto.
      * left. left. tauto.
    + apply IH in H; [|intros u v Huv; apply Hs; simpl; tauto].
      simpl. tauto.
Qed.

(** The result is ordered by [le]. *)
Lemma sorted_by_sorted l a b : before a b (sorted_by le l) -> le a b = true.
Proof.
  revert a b. induction l as [|x l IH]; intros a b; simpl; [tauto|].
  intros H. apply insert_by_before in H; [|exact IH].
  destruct H as [H|[[-> [_ H]]|[-> [_ H]]]]; [now apply IH | exact H |].
  destruct (le_total a x) as [H'|H']; congruence.
Qed.

(** The sort is stable: of two elements that could stand either way, the
    one that stood first stands first. *)
Lemma sorted_by_stable l a b :
  before a b (sorted_by le l) -> le b a = true -> before a b l.
Proof.
  revert a b. induction l as [|x l IH]; intros a b; simpl; [tauto|].
  intros H Hba. apply insert_by_before in H;
    [|intros u v; apply sorted_by_sorted].
  destruct H as [H|[[-> [H _]]|[-> [_ H]]]].
  - right. now apply IH.
  - left. split; [reflexivity|]. now apply (proj1 (sorted_by_In _ _)) in H.
  - congruence.
Qed.
End StableSort.

(** ** Runs of characters

    The equations that make [runs] the division of a text into its maximal
    runs of characters of a class. *)

Section Runs.
Variable p : ascii -> bool.

Lemma append_assoc (a b c : str) : ((a ++ b) ++ c)%string = (a ++ (b ++ c))%string.
Proof. induction a as [|ch a IH]; simpl; [reflexivity|now rewrite IH]. Qed.

Lemma runs_read t : forall cur s,
  str_forall p t = true ->
  runs p cur (t ++ s)%string = runs p (cur ++ t)%string s.
Proof.
  induction t as [|ch t IH]; intros cur s H; simpl in *.
  - now rewrite append_empty.
  - apply andb_true_iff in H. destruct H as [Hc Ht].
    rewrite Hc, IH by exact Ht.
    now rewrite append_assoc.
Qed.

(** A run followed by a character of another class is a token. *)
Lemma runs_token t c s :
  str_forall p t = true -> t <> "" -> p c = false ->
  runs p "" (t ++ String c s)%string = t :: runs p "" s.
Proof.
  intros Ht Hne Hc. rewrite runs_read by exact Ht. simpl. rewrite Hc.
  destruct t; [now elim Hne|reflexivity].
Qed.

(** A character of another class outside a run is skipped. *)
Lemma runs_skip c s : p c = false -> runs p "" (String c s) = runs p "" s.
Proof. intros Hc. simpl. now rewrite Hc. Qed.

(** A run that ends the text is a token. *)
Lemma runs_last t :
  str_forall p t = true -> t <> "" -> runs p "" t = [t].
Proof.
  intros Ht Hne. rewrite <- (append_empty t) at 1.
  rewrite runs_read by exact Ht. simpl.
  destruct t; [now elim Hne|reflexivity].
Qed.
End Runs.

(** ** First meetings *)

Lemma dedup_before (a b : str) toks :
  before a b (dedup String.eqb toks) -> first_before a b toks.
Proof.
  induction toks as [|k toks IH]; simpl; [tauto|].
  intros [[-> H]|H].
  - apply filter_In in H. destruct H as [H Hn].
    apply negb_true_iff, String.eqb_neq in Hn.
    apply (proj1 (dedup_In String.eqb String.eqb_eq _ _)) in H.
    split; [congruence|]. exists [], toks. simpl. tauto.
  - apply before_filter in H. destruct H as [H [Ha Hb]].
    apply negb_true_iff, String.eqb_neq in Ha.
    apply negb_true_iff, String.eqb_neq in Hb.
    destruct (IH H) as [Hab [pre [post [E [Hpa [Hpb Hpost]]]]]].
    split; [exact Hab|]. exists (k :: pre), post. rewrite E. simpl.
    repeat split; try tauto; intros [?|?]; congruence || tauto.
Qed.

Lemma slice_to_firstn {A} k (l : list A) : exists n, slice_to k l = firstn n l.
Proof. unfold slice_to. destruct (k <? 0); eexists; reflexivity. Qed.

Section Vocabulary.
Context {T : CharTable}.

Lemma count_tokens_keys toks : map fst (count_tokens toks) = dedup String.eqb toks.
Proof. apply (count_keys String.eqb String.eqb_eq). Qed.

Lemma freq_le_total (a b : str * Z) :
  (- snd a <=? - snd b) = true \/ (- snd b <=? - snd a) = true.
Proof. rewrite !Z.leb_le. lia. Qed.

Lemma freq_le_trans (a b c : str * Z) :
  (- snd a <=? - snd b) = true -> (- snd b <=? - snd c) = true ->
  (- snd a <=? - snd c) = true.
Proof. rewrite !Z.leb_le. lia. Qed.

(** The top words of a token stream: each with the number of times it is
    met, by descending number, and among words met equally often in the
    order in which they are first met. *)
Lemma top_words_spec toks top_n :
  let top := top_words (count_tokens toks) top_n in
  (forall w n, In (w, n) top ->
     In w toks /\ n = Z.of_nat (List.length (filter (String.eqb w) toks)))
  /\ (forall a b, before a b top ->
        snd b <= snd a
        /\ (snd a = snd b -> first_before (fst a) (fst b) toks)).
Proof.
  intros top. subst top. unfold top_words.
  destruct (slice_to_firstn top_n
              (sorted_by (fun x y => - snd x <=? - snd y) (count_tokens toks)))
    as [k ->].
  split.
  - intros w n H. apply In_firstn in H.
    apply (proj1 (sorted_by_In _ _ _)) in H.
    assert (Hk : In w (map fst (count_tokens toks)))
      by (apply in_map_iff; now exists (w, n)).
    rewrite count_tokens_keys in Hk.
    apply (proj1 (dedup_In String.eqb String.eqb_eq _ _)) in Hk.
    split; [exact Hk|].
    rewrite <- (lookup_In String.eqb String.eqb_eq w n (count_tokens toks)).
    + unfold count_tokens.
      change (fold_left (fun d w0 => incr String.eqb w0 d) toks [])
        with (count_all String.eqb toks []).
      now rewrite (count_all_lookup String.eqb String.eqb_eq).
    + rewrite count_tokens_keys. apply dedup_NoDup. exact String.eqb_eq.
    + exact H.
  - intros a b H. apply before_firstn in H. split.
    + apply (sorted_by_sorted _ freq_le_total freq_le_trans) in H.
      apply Z.leb_le in H. lia.
    + intros E. apply dedup_before. rewrite <- count_tokens_keys.
      apply before_map.
      apply (sorted_by_stable _ freq_le_total freq_le_trans) with (1 := H).
      apply Z.leb_le. lia.
Qed.

(** On a non-empty list [vocabulary_trends] does not raise and returns the
    top words of each side. *)
Lemma vocabulary_trends_returns pairs top_n :
  pairs <> [] ->
  snd (vocabulary_trends pairs top_n) =
  inr (Some [("en_top", top_words (count_tokens (tokens fst pairs)) top_n);
             ("fr_top", top_words (count_tokens (tokens snd pairs)) top_n)]).
Proof. destruct pairs; [now intros H; elim H | reflexivity]. Qed.
End Vocabulary.

(** ** The analyses *)

Section AnalysisFacts.
Context {T : CharTable}.

Lemma snd_bind {A B} (m : Py A) (f : A -> Py B) :
  snd (bind m f) =
  match snd m with
  | inl e => inl e
  | inr a => snd (f a)
  end.
Proof. unfold bind. destruct (snd m); reflexivity. Qed.

Lemma bind_ret {A B} (a : A) (f : A -> Py B) : bind (ret a) f = f a.
Proof. unfold bind, ret. simpl. now destruct (f a). Qed.

Lemma bind_raise {A B} (e : exn) (f : A -> Py B) : bind (raise e) f = raise e.
Proof. reflexivity. Qed.

(** A loop whose body only prints does not raise. *)
Lemma for_each_print {A} (l : list A) (body : A -> Py unit) (f : A -> line) :
  (forall a, body a = print (f a)) ->
  for_each l body = (map f l, inr tt).
Proof.
  intros H. induction l as [|a l IH]; [reflexivity|].
  simpl. unfold bind. rewrite IH, H. reflexivity.
Qed.

Lemma word_count_empty : word_count "" = 0.
Proof. reflexivity. Qed.

Lemma word_count_nonneg (s : str) : 0 <= word_count s.
Proof. unfold word_count. lia. Qed.

Lemma ratio_series_app pairs : forall acc,
  fold_left ratios_step pairs acc =
  (fst acc ++ fst (ratio_series pairs), snd acc ++ snd (ratio_series pairs)).
Proof.
  unfold ratio_series.
  induction pairs as [|p pairs IH]; intros [rc rw]; cbn [fold_left].
  - simpl. now rewrite !app_nil_r.
  - rewrite (IH (ratios_step (rc, rw) p)), (IH (ratios_step ([], []) p)).
    destruct p as [en fr]. unfold ratios_step.
    destruct (len en >? 0), (word_count en >? 0); simpl;
      rewrite <- ?app_assoc; reflexivity.
Qed.

(** The two series: one ratio for each pair with a non-empty source text,
    one for each pair with at least one source word, in the order of the
    pairs. *)
Lemma ratio_series_spec pairs :
  ratio_series pairs =
  (map (fun p => (inject_Z (len (snd p)) / inject_Z (len (fst p)))%Q)
       (filter (fun p => len (fst p) >? 0) pairs),
   map (fun p => (inject_Z (word_count (snd p))
                  / inject_Z (word_count (fst p)))%Q)
       (filter (fun p => word_count (fst p) >? 0) pairs)).
Proof.
  induction pairs as [|p pairs IH]; [reflexivity|].
  unfold ratio_series. cbn [fold_left]. rewrite ratio_series_app, IH.
  destruct p as [en fr]. unfold ratios_step. cbn [fst snd filter].
  destruct (len en >? 0), (word_count en >? 0); reflexivity.
Qed.

(** What [length_ratios] returns when some source text is not empty: the
    mean of the character ratios, and the sum of the word ratios over the
    number of character ratios. *)
Lemma length_ratios_returns pairs top_k :
  fst (ratio_series pairs) <> [] ->
  snd (length_ratios pairs top_k) =
  inr (Some [("mean_ratio_char", mean (fst (ratio_series pairs)));
             ("mean_ratio_word",
              (sum_float (snd (ratio_series pairs))
               / inject_Z (Z.of_nat (List.length (fst (ratio_series pairs)))))%Q)]).
Proof.
  intros Hne. unfold length_ratios.
  destruct pairs as [|p pairs]; [now elim Hne|]. cbn [is_nil].
  destruct (ratio_series (p :: pairs)) as [rc rw]. simpl in Hne. simpl fst. simpl snd.
  unfold truediv_float.
  assert (E : (Z.of_nat (List.length rc) =? 0) = false)
    by (apply Z.eqb_neq; destruct rc; [now elim Hne | simpl; lia]).
  rewrite E, !bind_ret. rewrite !snd_bind. cbn [print snd].
  rewrite for_each_print
    with (f := fun x : Pair * Q =>
            [Lit "  "; Float ".2f" (snd x); Lit "  en["; Int "" (len (fst (fst x)));
             Lit "] fr["; Int "" (len (snd (fst x))); Lit "]  en: ";
             Text (str_slice_to 60 (fst (fst x))); Lit "..."])
    by (intros [[en fr] r]; reflexivity).
  reflexivity.
Qed.
End AnalysisFacts.

(** ** Buckets *)

Section Buckets.
Context {T : CharTable}.

Lemma fold_max_spec xs : forall x,
  let m := fold_left Z.max xs x in
  In m (x :: xs) /\ Forall (fun w => w <= m) (x :: xs).
Proof.
  induction xs as [|y xs IH]; intros x; simpl.
  - split; [now left|]. constructor; [lia|constructor].
  - destruct (IH (Z.max x y)) as [Hin Hle]. simpl in Hin.
    inversion Hle as [|? ? Hxy Hrest]; subst. split.
    + destruct Hin as [Hin|Hin]; [|tauto].
      rewrite <- Hin.
      destruct (Z.max_spec x y) as [[_ E]|[_ E]]; rewrite E; tauto.
    + constructor; [lia|]. constructor; [lia|exact Hrest].
Qed.

Lemma py_max_spec ws :
  ws <> [] ->
  exists m, py_max ws = ret m /\ In m ws /\ Forall (fun w => w <= m) ws.
Proof.
  destruct ws as [|x xs]; [now intros H; elim H|]. intros _.
  exists (fold_left Z.max xs x). split; [reflexivity|]. apply fold_max_spec.
Qed.

(** [(m + n - 1) // n] is [ceil(m / n)]. *)
Lemma floordiv_ceil m n : 0 < n -> (m + n - 1) / n = ceil_div m n.
Proof.
  intros Hn. unfold ceil_div.
  pose proof (Z.div_mod (m + n - 1) n ltac:(lia)) as E.
  pose proof (Z.mod_pos_bound (m + n - 1) n Hn) as B.
  assert (H : (- m) / n = - ((m + n - 1) / n)).
  { symmetry. apply Z.div_unique with (r := n - 1 - (m + n - 1) mod n); lia. }
  rewrite H. lia.
Qed.

Lemma bucket_size_spec m n :
  0 < n -> bucket_size m n = ret (Z.max 1 (ceil_div m n)).
Proof.
  intros Hn. unfold bucket_size, floordiv.
  replace (n =? 0) with false by (symmetry; apply Z.eqb_neq; lia).
  rewrite bind_ret. now rewrite floordiv_ceil.
Qed.

Lemma fill_buckets_count words size n :
  fill_buckets words size n =
  count_all Z.eqb (map (fun w => bucket_of w size n) words) [].
Proof.
  unfold fill_buckets, count_all. generalize (@nil (Z * Z)).
  induction words as [|w words IH]; intros d; simpl; [reflexivity|apply IH].
Qed.

Lemma filter_map_length {A B} (f : A -> B) (p : B -> bool) l :
  List.length (filter p (map f l)) = List.length (filter (fun a => p (f a)) l).
Proof.
  induction l as [|a l IH]; simpl; [reflexivity|].
  destruct (p (f a)); simpl; now rewrite IH.
Qed.

(** A word count lies in the range printed for its bucket. *)
Lemma bucket_range w size n max_w :
  0 <= w -> 1 <= size -> w <= max_w ->
  let b := bucket_of w size n in
  bucket_lo b size <= w <= bucket_hi b size n max_w.
Proof.
  intros Hw Hs Hm b. subst b. unfold bucket_of, bucket_lo, bucket_hi.
  pose proof (Z.div_mod w size ltac:(lia)) as E.
  pose proof (Z.mod_pos_bound w size ltac:(lia)) as B.
  destruct (Z.min_spec (w / size) (n - 1)) as [[Hlt ->]|[Hge ->]].
  - replace (w / size <? n - 1) with true by (symmetry; apply Z.ltb_lt; lia).
    nia.
  - rewrite Z.ltb_irrefl. nia.
Qed.

(** The buckets of one side, for any positive number of buckets. *)
Lemma bucketing_holds n words :
  0 < n -> words <> [] -> Forall (fun w => 0 <= w) words ->
  exists max_w size,
    py_max words = ret max_w /\ bucket_size max_w n = ret size
    /\ 1 <= size /\ bucketing n words max_w size.
Proof.
  intros Hn Hne Hpos.
  destruct (py_max_spec words Hne) as [m [Hmax [Hin Hle]]].
  exists m, (Z.max 1 (ceil_div m n)).
  split; [exact Hmax|]. split; [now apply bucket_size_spec|].
  split; [lia|]. set (size := Z.max 1 (ceil_div m n)).
  assert (Hs : 1 <= size) by (subst size; lia).
  assert (Hkeys : forall b,
            In b (map fst (fill_buckets words size n)) <->
            exists w, In w words /\ b = Z.min (w / size) (n - 1)).
  { intros b. rewrite fill_buckets_count, (count_keys Z.eqb Z.eqb_eq).
    rewrite (dedup_In Z.eqb Z.eqb_eq), in_map_iff. unfold bucket_of.
    split; intros [w [H1 H2]]; exists w; [now split | now split]. }
  unfold bucketing.
  split; [now split|]. split; [reflexivity|]. split; [exact Hkeys|].
  split; [|split; [|split]].
  - intros b H. apply Hkeys in H. destruct H as [w [Hw ->]].
    rewrite Forall_forall in Hpos. specialize (Hpos w Hw).
    pose proof (Z.div_pos w size Hpos ltac:(lia)). lia.
  - intros b. rewrite fill_buckets_count.
    rewrite (count_all_lookup Z.eqb Z.eqb_eq). simpl.
    now rewrite filter_map_length.
  - intros w Hw. apply bucket_range; try assumption.
    + rewrite Forall_forall in Hpos. now apply Hpos.
    + rewrite Forall_forall in Hle. now apply Hle.
  - unfold bucket_hi. now rewrite Z.ltb_irrefl.
Qed.

Lemma print_buckets_lines buckets size n max_w :
  print_buckets buckets size n max_w =
  (map (fun b =>
          [Lit "  ["; Int "3d" (bucket_lo b size); Lit "-";
           Int "3d" (bucket_hi b size n max_w); Lit "]: ";
           Int "," (lookup Z.eqb b buckets)])
       (sorted_by Z.leb (map fst buckets)), inr tt).
Proof. unfold print_buckets. now apply for_each_print. Qed.

Lemma word_counts_nonneg (side : Pair -> str) pairs :
  Forall (fun w => 0 <= w) (map (fun p => word_count (side p)) pairs).
Proof.
  apply Forall_forall. intros w H. apply in_map_iff in H.
  destruct H as [p [<- _]]. apply word_count_nonneg.
Qed.
End Buckets.

Section AnalysisClaims.
Context {T : CharTable}.

(** C5 (amended). On the empty pair collection none of the five analyses
    raises; [basic_stats] prints the notice "No pairs loaded." and returns
    an empty mapping; [length_ratios], [sentence_length_distribution],
    [vocabulary_trends] and [sample_pairs] print nothing and return
    [None]. *)
Theorem C5_empty_collection
  (top_k num_buckets top_n k : Z) (indices : option (list Z)) :
  basic_stats [] = ([[Lit "No pairs loaded."]], inr [])
  /\ length_ratios [] top_k = ([], inr None)
  /\ sentence_length_distribution [] num_buckets = ([], inr tt)
  /\ vocabulary_trends [] top_n = ([], inr None)
  /\ sample_pairs [] k indices = ([], inr tt).
Proof. repeat split; reflexivity. Qed.

Lemma empty_sources_no_ratio pairs :
  Forall (fun p : Pair => fst p = "") pairs -> ratio_series pairs = ([], []).
Proof.
  intros H. rewrite ratio_series_spec.
  induction H as [|[en fr] pairs Hp _ IH]; [reflexivity|].
  simpl in Hp. subst en. simpl. exact IH.
Qed.

(** C10. On a non-empty pair list whose source texts are all empty both
    ratio series are empty and [length_ratios] raises ZeroDivisionError
    at the first mean, before it prints; the loader returns such a list for
    a record whose source variant has no segment. *)
Theorem C10_zero_division_on_empty_sources (top_k : Z) :
  (forall pairs,
     pairs <> [] -> Forall (fun p : Pair => fst p = "") pairs ->
     ratio_series pairs = ([], [])
     /\ length_ratios pairs top_k = ([], inl ZeroDivisionError))
  /\ (exists doc max_tu,
        load_tmx_subset_robust doc max_tu <> []
        /\ Forall (fun p : Pair => fst p = "")
                  (load_tmx_subset_robust doc max_tu)).
Proof.
  split.
  - intros pairs Hne Hall. split; [now apply empty_sources_no_ratio|].
    unfold length_ratios. rewrite (empty_sources_no_ratio pairs Hall).
    destruct pairs; [now elim Hne | reflexivity].
  - exists (tmx [tu_no_seg]), 1.
    assert (E : load_tmx_subset_robust (tmx [tu_no_seg]) 1
                = [("", strip "Bonjour")]) by reflexivity.
    rewrite E. split; [discriminate|]. repeat constructor.
Qed.
End AnalysisClaims.

(** Four of the five analyses print nothing on the empty collection, and
    return [None] rather than a summary. *)
Lemma C5_no_notice_is_printed :
  fst (length_ratios [] 10) = []
  /\ fst (sentence_length_distribution [] 10) = []
  /\ fst (vocabulary_trends [] 20) = []
  /\ fst (sample_pairs [] 5 None) = []
  /\ ~ (forall out r, length_ratios [] 10 = (out, r) -> out <> []).
Proof.
  repeat split; try reflexivity.
  intros H. now apply (H [] (inr None)).
Qed.

Lemma C10_zero_division_on_empty_sources_witness :
  load_tmx_subset_robust (tmx [tu_no_seg]) 10 = [("", "Bonjour")]
  /\ length_ratios (load_tmx_subset_robust (tmx [tu_no_seg]) 10) 5
     = ([], inl ZeroDivisionError).
Proof.
  split; [vm_compute; reflexivity|].
  destruct (C10_zero_division_on_empty_sources 5) as [H _].
  apply H; [discriminate | repeat constructor].
Defined.

(** The whole report on the document of that record stops at the ratios. *)
Lemma run_exploration_raises :
  snd (run_exploration "en-fr.tmx" (tmx [tu_no_seg]) 20000 5 10 25)
  = inl ZeroDivisionError.
Proof. vm_compute. reflexivity. Qed.

(** The means of [basic_stats] on two pairs: 13/2, 21/2, 3/2 and 2. *)
Lemma basic_stats_two_pairs :
  snd (basic_stats [("Hello world", "Bonjour le monde"); ("Hi", "Salut")])
  = inr [("n_pairs", NInt 2);
         ("en_char_mean", NFloat (13 # 2)); ("fr_char_mean", NFloat (21 # 2));
         ("en_word_mean", NFloat (3 # 2)); ("fr_word_mean", NFloat (4 # 2));
         ("en_char_min", NInt 2); ("en_char_max", NInt 11);
         ("fr_char_min", NInt 5); ("fr_char_max", NInt 16)].
Proof. vm_compute. reflexivity. Qed.

(** C6. On a list whose first source text is one blank the character
    series has two ratios and the word series one; [length_ratios] divides
    the sum of the word ratios by the number of character ratios and
    reports 1/2, where the mean of the word ratios is 1. *)
Theorem C6_word_mean_divided_by_char_count :
  List.length (fst (ratio_series pairs_blank)) = 2%nat
  /\ List.length (snd (ratio_series pairs_blank)) = 1%nat
  /\ exists mc mw,
       snd (length_ratios pairs_blank 10)
       = inr (Some [("mean_ratio_char", mc); ("mean_ratio_word", mw)])
       /\ (mc == mean (fst (ratio_series pairs_blank)))%Q
       /\ (mw == 1 # 2)%Q
       /\ (mean (snd (ratio_series pairs_blank)) == 1)%Q
       /\ ~ (mw == mean (snd (ratio_series pairs_blank)))%Q.
Proof.
  split; [reflexivity|]. split; [reflexivity|].
  eexists. eexists. split; [vm_compute; reflexivity|].
  repeat split; try (vm_compute; reflexivity).
  vm_compute. discriminate.
Qed.

Section DistributionClaims.
Context {T : CharTable}.

Lemma equal_counts_width words max_w size c :
  Forall (fun w => 0 <= w) words ->
  bucketing 10 words max_w size ->
  Forall (fun w => w = c) words -> c <= 10 -> size = 1.
Proof.
  intros Hpos [[Hin _] [Hsize _]] Hc Hle.
  rewrite Forall_forall in Hc, Hpos.
  pose proof (Hc _ Hin) as E. pose proof (Hpos _ Hin) as P. subst max_w.
  rewrite Hsize, <- floordiv_ceil by lia.
  assert ((c + 10 - 1) / 10 <= 1)
    by (apply Z.lt_succ_r, Z.div_lt_upper_bound; lia).
  lia.
Qed.

End DistributionClaims.





(** * Further properties of the loader *)

Section LoaderExtras.
Context {T : CharTable}.

(** On a document in which no translation unit lies inside another, and
    with a cap of at least one, the loader returns the pairs of the first
    [max_tu] qualifying records, in document order. *)
Theorem loader_first_cap_pairs doc max_tu :
  flat doc = true -> 1 <= max_tu ->
  load_tmx_subset_robust doc max_tu = firstn (Z.to_nat max_tu) (qualifying doc)
  /\ Z.of_nat (List.length (load_tmx_subset_robust doc max_tu))
     = Z.min max_tu (Z.of_nat (List.length (qualifying doc))).
Proof.
  intros Hflat Hcap. split; [now apply load_flat|].
  rewrite load_flat, length_firstn by assumption. lia.
Qed.

(** On any document, what a smaller cap returns is the beginning of what
    a larger cap returns, and a cap of at least one is never exceeded. *)
Theorem loader_cap_prefix doc c1 c2 :
  1 <= c1 -> c1 <= c2 ->
  load_tmx_subset_robust doc c1
  = firstn (Z.to_nat c1) (load_tmx_subset_robust doc c2)
  /\ Z.of_nat (List.length (load_tmx_subset_robust doc c1)) <= c1.
Proof.
  intros H1 H2. unfold load_tmx_subset_robust, load_events.
  rewrite !run_firstn by (simpl; lia). split.
  - rewrite firstn_firstn. f_equal. lia.
  - rewrite length_firstn. lia.
Qed.

(** A cap of zero or less is not honoured: the loader returns what it
    returns for a cap of one. *)
Theorem loader_nonpositive_cap doc max_tu :
  max_tu <= 0 ->
  load_tmx_subset_robust doc max_tu = load_tmx_subset_robust doc 1.
Proof. intros H. apply load_cap_le_1. lia. Qed.

Lemma advance_outside_no_tu c ev :
  is_tu (snd ev) = false -> in_tu c = false -> advance c ev = c.
Proof.
  destruct ev as [[|] e]; simpl; intros Htu Hin.
  - now apply advance_start_other.
  - now apply advance_end_outside.
Qed.

Lemma scan_outside_no_tu evs :
  Forall (fun ev => is_tu (snd ev) = false) evs ->
  forall c, in_tu c = false -> scan evs c = c.
Proof.
  induction 1 as [|ev evs Hev _ IH]; intros c Hin; simpl; [reflexivity|].
  rewrite advance_outside_no_tu by assumption. now apply IH.
Qed.

(** Variants that stand outside every translation unit are not read: a
    document without a translation unit yields no pair, under any cap. *)
Theorem no_unit_no_pairs doc max_tu :
  has_tu doc = false -> load_tmx_subset_robust doc max_tu = [].
Proof.
  intros H. unfold load_tmx_subset_robust, load_events.
  rewrite run_no_tu by (now apply iterparse_no_tu).
  rewrite scan_outside_no_tu; [reflexivity | now apply iterparse_no_tu | reflexivity].
Qed.

Lemma get_attr_In a key v d :
  NoDup (map fst a) -> In (key, v) a -> get_attr a key d = v.
Proof.
  induction a as [|[k w] a IH]; simpl; [tauto|]. intros Hnd [H|H].
  - injection H as -> ->. now rewrite String.eqb_refl.
  - inversion Hnd as [|? ? Hk Ha]; subst.
    destruct (k =? key)%string eqn:E; [|now apply IH].
    apply String.eqb_eq in E. subst k. exfalso. apply Hk.
    apply in_map_iff. now exists (key, v).
Qed.

Lemma get_attr_missing a key d :
  ~ In key (map fst a) -> get_attr a key d = d.
Proof.
  induction a as [|[k w] a IH]; simpl; [reflexivity|]. intros H.
  destruct (k =? key)%string eqn:E.
  - apply String.eqb_eq in E. tauto.
  - apply IH. tauto.
Qed.

(** The language of a variant is the value of the qualified attribute
    [xml:lang] whenever that attribute is present, whatever a bare [lang]
    attribute says; the bare attribute is read only when the qualified one
    is missing; with neither, the language is the empty string. *)
Theorem lang_of_precedence elem :
  NoDup (map fst (attrib elem)) ->
  (forall l, In (xml_lang, l) (attrib elem) -> lang_of elem = l)
  /\ (forall l, ~ In xml_lang (map fst (attrib elem)) ->
                In ("lang", l) (attrib elem) -> lang_of elem = l)
  /\ (~ In xml_lang (map fst (attrib elem)) ->
      ~ In "lang" (map fst (attrib elem)) -> lang_of elem = "").
Proof.
  intros Hnd. unfold lang_of, get. repeat split.
  - intros l H. now apply get_attr_In.
  - intros l Hq H. rewrite get_attr_missing by exact Hq.
    now apply get_attr_In.
  - intros Hq Hb. now rewrite get_attr_missing, get_attr_missing.
Qed.

(** The end tag of a variant whose language is neither "en" nor "fr",
    compared as written, leaves the collection and both slots as they
    were. *)
Theorem untracked_variant_ignored max_tu c v :
  is_tu v = false -> lang_of v <> "en" -> lang_of v <> "fr" ->
  loop_body max_tu c (ev_end, v) = Continue c.
Proof.
  unfold is_tu, lang_of, loop_body. intros -> Hen Hfr.
  apply String.eqb_neq in Hen. apply String.eqb_neq in Hfr.
  rewrite Hen, Hfr. destruct (in_tu c && _); reflexivity.
Qed.

(** ** Stripped texts *)

Lemma lstrip_clean_start s : clean_start (lstrip s) = true.
Proof.
  induction s as [|c s IH]; simpl; [reflexivity|].
  destruct (isspace c) eqn:E; [exact IH|]. simpl. now rewrite E.
Qed.

Lemma rstrip_clean_end s : clean_end (rstrip s) = true.
Proof.
  induction s as [|c s IH]; simpl; [reflexivity|].
  destruct (rstrip s) as [|c' r] eqn:E.
  - destruct (isspace c) eqn:Ec; simpl; [reflexivity|now rewrite Ec].
  - exact IH.
Qed.

Lemma rstrip_clean_start s :
  clean_start s = true -> clean_start (rstrip s) = true.
Proof.
  destruct s as [|c s]; simpl; [reflexivity|]. intros H.
  apply negb_true_iff in H.
  destruct (rstrip s); [rewrite H|]; simpl; now rewrite H.
Qed.

Lemma strip_stripped s : stripped (strip s) = true.
Proof.
  unfold stripped, strip.
  rewrite rstrip_clean_start by apply lstrip_clean_start.
  now rewrite rstrip_clean_end.
Qed.

Lemma get_seg_text_stripped v : stripped (_get_seg_text v) = true.
Proof.
  unfold _get_seg_text. destruct (py_or _ _); [apply strip_stripped|reflexivity].
Qed.

Lemma loop_body_clean cap c ev :
  clean_cursor c -> clean_cursor (cursor_of (loop_body cap c ev)).
Proof.
  intros [Hp [Hen Hfr]]. unfold loop_body. destruct ev as [e elem].
  destruct (local_tag elem =? "tu")%string.
  - destruct e; [repeat split; simpl; auto|].
    destruct (en_text c) as [en|] eqn:Een; [|repeat split; simpl; auto].
    destruct (fr_text c) as [fr|] eqn:Efr; [|repeat split; simpl; auto].
    assert (Hp' : Forall (fun p : Pair => stripped (fst p) = true
                                          /\ stripped (snd p) = true)
                         (pairs c ++ [(en, fr)])).
    { apply Forall_app. split; [exact Hp|]. constructor; [|constructor].
      split; assumption. }
    destruct (_ >=? cap); repeat split; simpl; auto.
  - destruct (in_tu c && _); [|repeat split; auto].
    destruct e; [repeat split; auto|].
    destruct (_ =? "en")%string;
      [repeat split; simpl; auto; apply get_seg_text_stripped|].
    destruct (_ =? "fr")%string; repeat split; simpl; auto.
    apply get_seg_text_stripped.
Qed.

Lemma run_clean cap evs : forall c,
  clean_cursor c -> clean_cursor (cursor_of (run cap evs c)).
Proof.
  induction evs as [|ev evs IH]; intros c Hc; simpl; [exact Hc|].
  pose proof (loop_body_clean cap c ev Hc) as H.
  destruct (loop_body cap c ev); [now apply IH | exact H].
Qed.

Lemma load_clean doc max_tu p :
  In p (load_tmx_subset_robust doc max_tu) ->
  stripped (fst p) = true /\ stripped (snd p) = true.
Proof.
  intros H. unfold load_tmx_subset_robust, load_events in H.
  assert (Hc : clean_cursor init) by (repeat split; constructor).
  destruct (run_clean max_tu (iterparse doc) init Hc) as [Hp _].
  rewrite Forall_forall in Hp. now apply Hp.
Qed.

(** Whatever the document and the cap, neither text of a loaded pair
    begins or ends with white space. *)
Theorem loaded_texts_stripped doc max_tu p :
  In p (load_tmx_subset_robust doc max_tu) ->
  stripped (fst p) = true /\ stripped (snd p) = true.
Proof. apply load_clean. Qed.
End LoaderExtras.

(** * Further properties of the analyses *)

Section RatioExtras.
Context {T : CharTable}.

Lemma runs_cur_nonempty p s : forall cur, cur <> "" -> runs p cur s <> [].
Proof.
  induction s as [|c s IH]; intros cur Hne; simpl.
  - destruct cur; [now elim Hne|discriminate].
  - destruct (p c).
    + apply IH. destruct cur; discriminate.
    + destruct cur; [now elim Hne|discriminate].
Qed.

(** A text that does not begin with white space has a word as soon as it
    has a character. *)
Lemma clean_start_words s :
  clean_start s = true -> (len s >? 0) = (word_count s >? 0).
Proof.
  destruct s as [|c s]; [reflexivity|]. simpl clean_start. intros Hc.
  assert (H1 : (len (String c s) >? 0) = true)
    by (apply Z.gtb_lt; unfold len; simpl; lia).
  rewrite H1. symmetry. apply Z.gtb_lt. unfold word_count, split. simpl.
  rewrite Hc.
  assert (H : runs (fun c0 => negb (isspace c0)) (String c "") s <> [])
    by (apply runs_cur_nonempty; discriminate).
  destruct (runs _ _ s); [now elim H | simpl; lia].
Qed.

Lemma clean_sources_series pairs :
  Forall (fun p : Pair => clean_start (fst p) = true) pairs ->
  List.length (snd (ratio_series pairs)) = List.length (fst (ratio_series pairs)).
Proof.
  intros H. rewrite ratio_series_spec. simpl. rewrite !length_map.
  f_equal. apply filter_ext_in. intros p Hp.
  rewrite Forall_forall in H. symmetry. now apply clean_start_words, H.
Qed.

(** On a list that the loader has returned the two ratio series have the
    same pairs behind them, and [length_ratios], when some source text is
    not empty, reports the mean of each series. *)
Theorem loaded_pairs_means doc max_tu top_k :
  fst (ratio_series (load_tmx_subset_robust doc max_tu)) <> [] ->
  List.length (snd (ratio_series (load_tmx_subset_robust doc max_tu)))
  = List.length (fst (ratio_series (load_tmx_subset_robust doc max_tu)))
  /\ snd (length_ratios (load_tmx_subset_robust doc max_tu) top_k)
     = inr (Some
         [("mean_ratio_char",
           mean (fst (ratio_series (load_tmx_subset_robust doc max_tu))));
          ("mean_ratio_word",
           mean (snd (ratio_series (load_tmx_subset_robust doc max_tu))))]).
Proof.
  intros Hne.
  assert (Hlen : List.length (snd (ratio_series (load_tmx_subset_robust doc max_tu)))
                 = List.length (fst (ratio_series (load_tmx_subset_robust doc max_tu)))).
  { apply clean_sources_series, Forall_forall. intros p Hp.
    destruct (load_clean doc max_tu p Hp) as [H _].
    unfold stripped in H. now apply andb_true_iff in H. }
  split; [exact Hlen|].
  rewrite length_ratios_returns by exact Hne.
  unfold mean. now rewrite Hlen.
Qed.

Lemma len_zero_empty s : (len s >? 0) = false -> s = "".
Proof.
  destruct s; [reflexivity|]. unfold len. simpl. intros H.
  rewrite Z.gtb_ltb in H. apply Z.ltb_ge in H. lia.
Qed.

Lemma no_char_ratio_empty_sources pairs :
  fst (ratio_series pairs) = [] -> Forall (fun p : Pair => fst p = "") pairs.
Proof.
  rewrite ratio_series_spec. simpl. intros H. apply map_eq_nil in H.
  apply Forall_forall. intros p Hp. apply len_zero_empty.
  destruct (len (fst p) >? 0) eqn:E; [|reflexivity].
  assert (Hin : In p (filter (fun p => len (fst p) >? 0) pairs))
    by (apply filter_In; now split).
  rewrite H in Hin. contradiction.
Qed.

(** [length_ratios] raises exactly on the non-empty lists whose source
    texts are all empty, and what it raises is ZeroDivisionError. *)
Theorem length_ratios_raises_iff pairs top_k :
  (forall e, snd (length_ratios pairs top_k) = inl e ->
             e = ZeroDivisionError
             /\ pairs <> [] /\ Forall (fun p : Pair => fst p = "") pairs)
  /\ (pairs <> [] -> Forall (fun p : Pair => fst p = "") pairs ->
      snd (length_ratios pairs top_k) = inl ZeroDivisionError).
Proof.
  split.
  - intros e He. destruct pairs as [|p pairs]; [discriminate|].
    destruct (fst (ratio_series (p :: pairs))) as [|q qs] eqn:E.
    + pose proof (no_char_ratio_empty_sources _ E) as Hall.
      unfold length_ratios in He.
      rewrite (empty_sources_no_ratio _ Hall) in He. simpl in He.
      injection He as <-. repeat split; [discriminate|exact Hall].
    + rewrite length_ratios_returns in He by (rewrite E; discriminate).
      discriminate.
  - intros Hne Hall. unfold length_ratios.
    rewrite (empty_sources_no_ratio _ Hall).
    destruct pairs; [now elim Hne|reflexivity].
Qed.

Lemma ratio_le_total (x y : Pair * Q) :
  Qle_bool (snd y) (snd x) = true \/ Qle_bool (snd x) (snd y) = true.
Proof.
  rewrite !Qle_bool_iff. destruct (Qlt_le_dec (snd x) (snd y)) as [H|H].
  - right. now apply Qlt_le_weak.
  - now left.
Qed.

Lemma ratio_le_trans (x y z : Pair * Q) :
  Qle_bool (snd y) (snd x) = true -> Qle_bool (snd z) (snd y) = true ->
  Qle_bool (snd z) (snd x) = true.
Proof. rewrite !Qle_bool_iff. intros H1 H2. now apply Qle_trans with (snd y). Qed.

Lemma slice_to_length {A} k (l : list A) :
  0 <= k -> Z.of_nat (List.length (slice_to k l)) <= k.
Proof.
  intros Hk. unfold slice_to.
  replace (k <? 0) with false by (symmetry; apply Z.ltb_ge; lia).
  rewrite length_firstn. lia.
Qed.

(** When some source text is not empty, [length_ratios] prints, after its
    four heading lines, one line for each pair it shows.  The pairs shown
    are pairs of the list whose source has at least 20 characters, each
    with its character ratio; the ratios descend; of two pairs with the
    same ratio the one that stands first in the list is shown first; and
    for [top_k >= 0] at most [top_k] pairs are shown. *)
Theorem length_ratios_extremes pairs top_k :
  fst (ratio_series pairs) <> [] ->
  exists mean_rc mean_rw shown,
    length_ratios pairs top_k =
    ([[Lit (nl ++ "=== Length ratios (FR/EN) ===")%string];
      [Lit "By character: mean="; Float ".3f" mean_rc];
      [Lit "By word:      mean="; Float ".3f" mean_rw];
      [Lit (nl ++ "Top ")%string; Int "" top_k;
       Lit " pairs with highest FR/EN char ratio (EN length >= ";
       Int "" 20; Lit "):"]]
     ++ map extreme_line shown,
     inr (Some [("mean_ratio_char", mean_rc); ("mean_ratio_word", mean_rw)]))
    /\ (forall x, In x shown ->
          In (fst x) pairs /\ 20 <= len (fst (fst x))
          /\ snd x = char_ratio (fst x))
    /\ (forall a b, before a b shown ->
          (snd b <= snd a)%Q
          /\ ((snd a <= snd b)%Q -> before (fst a) (fst b) pairs))
    /\ (0 <= top_k -> Z.of_nat (List.length shown) <= top_k).
Proof.
  intros Hne.
  set (with_ratio := map (fun p : Pair => (p, char_ratio p))
                         (filter (fun p => len (fst p) >=? 20) pairs)).
  set (ranked := sorted_by (fun x y : Pair * Q => Qle_bool (snd y) (snd x))
                           with_ratio).
  exists (sum_float (fst (ratio_series pairs))
          / inject_Z (Z.of_nat (List.length (fst (ratio_series pairs)))))%Q.
  exists (sum_float (snd (ratio_series pairs))
          / inject_Z (Z.of_nat (List.length (fst (ratio_series pairs)))))%Q.
  exists (slice_to top_k ranked). split; [|split; [|split]].
  - unfold length_ratios.
    destruct pairs as [|p pairs]; [now elim Hne|]. cbn [is_nil].
    destruct (ratio_series (p :: pairs)) as [rc rw]. simpl in Hne.
    cbn [fst snd].
    unfold truediv_float.
    assert (E : (Z.of_nat (List.length rc) =? 0) = false)
      by (apply Z.eqb_neq; destruct rc; [now elim Hne | simpl; lia]).
    rewrite E, !bind_ret.
    rewrite for_each_print with (f := extreme_line)
      by (intros [[en fr] r]; reflexivity).
    unfold bind, print, ret. cbn [fst snd app]. now rewrite app_nil_r.
  - intros x Hx. destruct (slice_to_firstn top_k ranked) as [n Hn].
    rewrite Hn in Hx. apply In_firstn in Hx.
    apply (proj1 (sorted_by_In _ _ _)) in Hx.
    apply in_map_iff in Hx. destruct Hx as [p [<- Hp]].
    apply filter_In in Hp. destruct Hp as [Hp Hlen]. simpl.
    repeat split; [exact Hp|]. apply Z.geb_le in Hlen. lia.
  - intros a b Hab. destruct (slice_to_firstn top_k ranked) as [n Hn].
    rewrite Hn in Hab. apply before_firstn in Hab. split.
    + apply (sorted_by_sorted _ ratio_le_total ratio_le_trans) in Hab.
      now apply Qle_bool_iff in Hab.
    + intros Hle.
      apply (sorted_by_stable _ ratio_le_total ratio_le_trans) in Hab;
        [|now apply Qle_bool_iff].
      apply (before_map fst) in Hab. unfold with_ratio in Hab.
      rewrite map_map in Hab. simpl in Hab. rewrite map_id in Hab.
      now apply before_filter in Hab.
  - apply slice_to_length.
Qed.
End RatioExtras.

Section StatsExtras.
Context {T : CharTable}.

Lemma fold_min_spec xs : forall x,
  let m := fold_left Z.min xs x in
  In m (x :: xs) /\ Forall (fun w => m <= w) (x :: xs).
Proof.
  induction xs as [|y xs IH]; intros x; simpl.
  - split; [now left|]. constructor; [lia|constructor].
  - destruct (IH (Z.min x y)) as [Hin Hle]. simpl in Hin.
    inversion Hle as [|? ? Hxy Hrest]; subst. split.
    + destruct Hin as [Hin|Hin]; [|tauto]. rewrite <- Hin.
      destruct (Z.min_spec x y) as [[_ E]|[_ E]]; rewrite E; tauto.
    + constructor; [lia|]. constructor; [lia|exact Hrest].
Qed.

Lemma sum_acc l : forall a, fold_left Z.add l a = a + sum l.
Proof.
  unfold sum. induction l as [|x l IH]; intros a; simpl; [lia|].
  rewrite IH, (IH x). lia.
Qed.

Lemma sum_cons x l : sum (x :: l) = x + sum l.
Proof. unfold sum at 1. simpl. apply sum_acc. Qed.

Lemma sum_bounds mn mx l :
  Forall (fun x => mn <= x <= mx) l ->
  mn * Z.of_nat (List.length l) <= sum l <= mx * Z.of_nat (List.length l).
Proof.
  induction 1 as [|x l Hx _ IH]; [unfold sum; simpl; lia|].
  rewrite sum_cons. simpl List.length. nia.
Qed.

(** The least, the greatest and the mean of a non-empty list, as
    [basic_stats] computes them. *)
Lemma extent_holds l :
  l <> [] ->
  exists mn mx m,
    py_min l = ret mn /\ py_max l = ret mx
    /\ truediv (sum l) (Z.of_nat (List.length l)) = ret m
    /\ extent l mn mx m.
Proof.
  intros Hne. destruct l as [|x xs]; [now elim Hne|].
  destruct (fold_min_spec xs x) as [Hmin_in Hmin].
  destruct (fold_max_spec xs x) as [Hmax_in Hmax].
  set (l := x :: xs) in *.
  set (n := Z.of_nat (List.length l)).
  assert (Hn : 0 < n) by (subst n l; simpl; lia).
  exists (fold_left Z.min xs x), (fold_left Z.max xs x),
         (inject_Z (sum l) / inject_Z n)%Q.
  split; [reflexivity|]. split; [reflexivity|]. split.
  - unfold truediv. fold n.
    replace (n =? 0) with false by (symmetry; apply Z.eqb_neq; lia).
    reflexivity.
  - assert (Hall : Forall (fun w => fold_left Z.min xs x <= w
                                     <= fold_left Z.max xs x) l).
    { rewrite Forall_forall in *. intros w Hw. split; auto. }
    pose proof (sum_bounds _ _ _ Hall) as [Hlo Hhi]. fold n in Hlo, Hhi.
    assert (Hq : (0 < inject_Z n)%Q)
      by (change (inject_Z 0 < inject_Z n)%Q; rewrite <- Zlt_Qlt; exact Hn).
    unfold extent. repeat split; try assumption.
    + apply Qle_shift_div_l; [exact Hq|].
      rewrite <- inject_Z_mult, <- Zle_Qle. exact Hlo.
    + apply Qle_shift_div_r; [exact Hq|].
      rewrite <- inject_Z_mult, <- Zle_Qle. exact Hhi.
Qed.

(** On a non-empty list [basic_stats] does not raise.  It returns the
    number of pairs; for each side the least and the greatest length in
    characters, both attained, and the mean length, which lies between
    them; and for each side the mean number of words. *)
Theorem basic_stats_nonempty pairs :
  pairs <> [] ->
  let n := Z.of_nat (List.length pairs) in
  let en_lens := map (fun p : Pair => len (fst p)) pairs in
  let fr_lens := map (fun p : Pair => len (snd p)) pairs in
  let en_words := map (fun p : Pair => word_count (fst p)) pairs in
  let fr_words := map (fun p : Pair => word_count (snd p)) pairs in
  exists en_mean fr_mean en_min en_max fr_min fr_max,
    snd (basic_stats pairs)
    = inr [("n_pairs", NInt n);
           ("en_char_mean", NFloat en_mean);
           ("fr_char_mean", NFloat fr_mean);
           ("en_word_mean", NFloat (inject_Z (sum en_words) / inject_Z n)%Q);
           ("fr_word_mean", NFloat (inject_Z (sum fr_words) / inject_Z n)%Q);
           ("en_char_min", NInt en_min); ("en_char_max", NInt en_max);
           ("fr_char_min", NInt fr_min); ("fr_char_max", NInt fr_max)]
    /\ extent en_lens en_min en_max en_mean
    /\ extent fr_lens fr_min fr_max fr_mean.
Proof.
  intros Hne n en_lens fr_lens en_words fr_words.
  assert (Hen : en_lens <> []) by (subst en_lens; now destruct pairs).
  assert (Hfr : fr_lens <> []) by (subst fr_lens; now destruct pairs).
  destruct (extent_holds en_lens Hen)
    as [en_min [en_max [en_mean [Hmin_en [Hmax_en [Hmean_en Hx_en]]]]]].
  destruct (extent_holds fr_lens Hfr)
    as [fr_min [fr_max [fr_mean [Hmin_fr [Hmax_fr [Hmean_fr Hx_fr]]]]]].
  exists en_mean, fr_mean, en_min, en_max, fr_min, fr_max.
  split; [|split; assumption].
  assert (Hlen_en : Z.of_nat (List.length en_lens) = n)
    by (subst en_lens n; now rewrite length_map).
  assert (Hlen_fr : Z.of_nat (List.length fr_lens) = n)
    by (subst fr_lens n; now rewrite length_map).
  rewrite Hlen_en in Hmean_en. rewrite Hlen_fr in Hmean_fr.
  assert (Hn : (n =? 0) = false)
    by (apply Z.eqb_neq; subst n; destruct pairs; [now elim Hne|simpl; lia]).
  assert (Hnil : is_nil pairs = false) by (destruct pairs; [now elim Hne|reflexivity]).
  unfold basic_stats. rewrite Hnil. cbv zeta.
  unfold n, en_lens, fr_lens, en_words, fr_words in *. unfold Pair in *.
  rewrite Hmean_en, bind_ret, Hmean_fr, bind_ret.
  unfold truediv at 1 2. rewrite Hn, !bind_ret.
  rewrite Hmin_en, bind_ret, Hmax_en, bind_ret.
  rewrite Hmin_fr, bind_ret, Hmax_fr, bind_ret.
  reflexivity.
Qed.

Lemma incr_total {K} (eqb : K -> K -> bool) k (d : dict K Z) :
  sum (map snd (incr eqb k d)) = sum (map snd d) + 1.
Proof.
  induction d as [|[k' v] d IH]; cbn [incr map snd]; [reflexivity|].
  destruct (eqb k k'); cbn [map snd]; rewrite !sum_cons; [lia|].
  rewrite IH. lia.
Qed.

Lemma count_all_total {K} (eqb : K -> K -> bool) ks : forall d : dict K Z,
  sum (map snd (count_all eqb ks d))
  = sum (map snd d) + Z.of_nat (List.length ks).
Proof.
  unfold count_all.
  induction ks as [|k ks IH]; intros d; cbn [fold_left List.length].
  - change (Z.of_nat 0) with 0. lia.
  - rewrite IH, incr_total. lia.
Qed.

Lemma incr_positive {K} (eqb : K -> K -> bool) k (d : dict K Z) :
  Forall (fun kv => 1 <= snd kv) d ->
  Forall (fun kv => 1 <= snd kv) (incr eqb k d).
Proof.
  induction 1 as [|[k' v] d Hv Hd IH]; simpl.
  - constructor; [simpl; lia|constructor].
  - destruct (eqb k k'); constructor; simpl in *; auto; lia.
Qed.

Lemma count_all_positive {K} (eqb : K -> K -> bool) ks : forall d : dict K Z,
  Forall (fun kv => 1 <= snd kv) d ->
  Forall (fun kv => 1 <= snd kv) (count_all eqb ks d).
Proof.
  unfold count_all. induction ks as [|k ks IH]; intros d Hd; simpl;
    [exact Hd|].
  apply IH. now apply incr_positive.
Qed.

Lemma before_NoDup {A} (a b : A) l : NoDup l -> before a b l -> a <> b.
Proof.
  induction 1 as [|x l Hx _ IH]; simpl; [tauto|].
  intros [[-> Hb]|H]; [|now apply IH]. intros ->. contradiction.
Qed.

Lemma Zleb_total a b : (a <=? b) = true \/ (b <=? a) = true.
Proof. rewrite !Z.leb_le. lia. Qed.

Lemma Zleb_trans a b c :
  (a <=? b) = true -> (b <=? c) = true -> (a <=? c) = true.
Proof. rewrite !Z.leb_le. lia. Qed.

(** The buckets of one side: a table with no index twice, every count at
    least one, the counts adding up to the number of word counts, and its
    indices printed in strictly ascending order. *)
Lemma buckets_table words size n :
  let buckets := fill_buckets words size n in
  NoDup (map fst buckets)
  /\ Forall (fun kv => 1 <= snd kv) buckets
  /\ sum (map snd buckets) = Z.of_nat (List.length words)
  /\ (forall a b, before a b (sorted_by Z.leb (map fst buckets)) -> a < b).
Proof.
  intros buckets. subst buckets. rewrite fill_buckets_count.
  assert (Hnd : NoDup (map fst (count_all Z.eqb
                  (map (fun w => bucket_of w size n) words) [])))
    by (rewrite (count_keys Z.eqb Z.eqb_eq); apply dedup_NoDup, Z.eqb_eq).
  split; [exact Hnd|]. split; [apply count_all_positive; constructor|]. split.
  - rewrite count_all_total, length_map. unfold sum. simpl. lia.
  - intros a b H.
    pose proof (sorted_by_sorted _ Zleb_total Zleb_trans _ _ _ H) as Hle.
    apply Z.leb_le in Hle.
    assert (Hneq : a <> b).
    { apply before_NoDup with (2 := H).
      apply (Permutation_NoDup (l := map fst (count_all Z.eqb
               (map (fun w => bucket_of w size n) words) [])));
        [|exact Hnd].
      symmetry. apply sorted_by_perm. }
    lia.
Qed.


(** With no bucket at all the width cannot be computed: on a non-empty
    list [sentence_length_distribution] raises ZeroDivisionError before
    it prints. *)
Theorem distribution_zero_buckets pairs :
  pairs <> [] ->
  sentence_length_distribution pairs 0 = ([], inl ZeroDivisionError).
Proof.
  intros Hne.
  assert (Hen : map (fun p => word_count (fst p)) pairs <> [])
    by now destruct pairs.
  assert (Hfr : map (fun p => word_count (snd p)) pairs <> [])
    by now destruct pairs.
  destruct (py_max_spec _ Hen) as [m1 [H1 _]].
  destruct (py_max_spec _ Hfr) as [m2 [H2 _]].
  unfold sentence_length_distribution.
  destruct pairs as [|p pairs]; [now elim Hne|]. cbn [is_nil].
  rewrite H1, bind_ret, H2, bind_ret. reflexivity.
Qed.
End StatsExtras.

Section SampleExtras.
Context {T : CharTable}.

Lemma getitem_in_range pairs idx :
  0 <= idx < Z.of_nat (List.length pairs) ->
  exists p, nth_error pairs (Z.to_nat idx) = Some p
            /\ getitem pairs idx = ret p.
Proof.
  intros H. unfold getitem. cbv zeta.
  assert (E0 : (idx <? 0) = false) by (apply Z.ltb_ge; lia).
  assert (E1 : (idx >=? Z.of_nat (List.length pairs)) = false)
    by (rewrite Z.geb_leb; apply Z.leb_gt; lia).
  rewrite E0. cbv iota. rewrite E0, E1. cbn [orb].
  destruct (nth_error pairs (Z.to_nat idx)) as [p|] eqn:E.
  - now exists p.
  - apply nth_error_None in E. lia.
Qed.

Lemma sample_loop_in_range pairs l : forall i rest,
  Forall (fun idx => 0 <= idx < Z.of_nat (List.length pairs)) l ->
  sample_loop pairs i (l ++ rest)
  = (show_samples pairs i l
     ++ fst (sample_loop pairs (i + Z.of_nat (List.length l)) rest),
     snd (sample_loop pairs (i + Z.of_nat (List.length l)) rest)).
Proof.
  induction l as [|idx l IH]; intros i rest Hall.
  - simpl. rewrite Z.add_0_r. now destruct (sample_loop pairs i rest).
  - inversion Hall as [|? ? Hidx Hl]; subst.
    destruct (getitem_in_range pairs idx Hidx) as [p [Hp Hg]].
    cbn [app sample_loop show_samples]. rewrite Hp, Hg, bind_ret.
    replace (idx >=? Z.of_nat (List.length pairs)) with false
      by (symmetry; rewrite Z.geb_leb; apply Z.leb_gt; lia).
    destruct p as [en fr]. rewrite (IH (i + 1) rest Hl).
    replace (i + 1 + Z.of_nat (List.length l))
      with (i + Z.of_nat (List.length (idx :: l)))
      by (simpl List.length; lia).
    unfold bind, print, sample_lines. cbn [fst snd app]. reflexivity.
Qed.

Lemma sample_loop_stop pairs i idx rest :
  Z.of_nat (List.length pairs) <= idx ->
  sample_loop pairs i (idx :: rest) = ret tt.
Proof.
  intros H. simpl.
  replace (idx >=? Z.of_nat (List.length pairs)) with true
    by (symmetry; rewrite Z.geb_leb; apply Z.leb_le; lia).
  reflexivity.
Qed.

Lemma show_samples_length pairs l : forall i,
  Forall (fun idx => 0 <= idx < Z.of_nat (List.length pairs)) l ->
  Z.of_nat (List.length (show_samples pairs i l))
  = 4 * Z.of_nat (List.length l).
Proof.
  induction l as [|idx l IH]; intros i Hall; [reflexivity|].
  inversion Hall as [|? ? Hidx Hl]; subst.
  destruct (getitem_in_range pairs idx Hidx) as [p [Hp _]].
  cbn [show_samples]. rewrite Hp, length_app, Nat2Z.inj_add, IH by exact Hl.
  simpl List.length. lia.
Qed.

Lemma range_split k m :
  0 <= m <= k ->
  range k = range m ++ map Z.of_nat (seq (Z.to_nat m) (Z.to_nat (k - m))).
Proof.
  intros H. unfold range.
  replace (Z.to_nat k) with (Z.to_nat m + Z.to_nat (k - m))%nat by lia.
  now rewrite seq_app, map_app.
Qed.

Lemma range_bound k i : In i (range k) -> 0 <= i < k.
Proof.
  unfold range. intros H. apply in_map_iff in H.
  destruct H as [j [<- Hj]]. apply in_seq in Hj. lia.
Qed.

(** With the indices left to the function and [k >= 0], [sample_pairs]
    never raises on a non-empty list: it shows the pairs at the indices
    [0, step, 2 * step, ...], with [step = max(1, n // (k + 1))], all
    within the list, and shows [min(k, n)] pairs in all, four lines for
    each after the heading. *)
Theorem sample_pairs_default pairs k :
  pairs <> [] -> 0 <= k ->
  let n := Z.of_nat (List.length pairs) in
  let step := Z.max 1 (n / (k + 1)) in
  let shown := map (fun i => i * step) (range (Z.min k n)) in
  sample_pairs pairs k None
  = ([Lit (nl ++ "=== Sample pairs ===")%string] :: show_samples pairs 0 shown,
     inr tt)
  /\ Forall (fun idx => 0 <= idx < n) shown
  /\ Z.of_nat (List.length (show_samples pairs 0 shown)) = 4 * Z.min k n.
Proof.
  intros Hne Hk n step shown.
  assert (Hn : 0 < n) by (subst n; destruct pairs; [now elim Hne|simpl; lia]).
  assert (Hstep : 1 <= step) by (subst step; lia).
  assert (Hq : (k + 1) * (n / (k + 1)) <= n)
    by (apply Z.mul_div_le; lia).
  assert (Hshown : Forall (fun idx => 0 <= idx < n) shown).
  { apply Forall_forall. intros idx Hidx. subst shown.
    apply in_map_iff in Hidx. destruct Hidx as [i [<- Hi]].
    apply range_bound in Hi. subst step.
    destruct (Z.max_spec 1 (n / (k + 1))) as [[Hlt ->]|[_ ->]]; [|lia].
    assert (i * (n / (k + 1)) <= (k - 1) * (n / (k + 1)))
      by (apply Z.mul_le_mono_nonneg_r; lia).
    nia. }
  split; [|split; [exact Hshown|]].
  - unfold sample_pairs.
    destruct pairs as [|p pairs]; [now elim Hne|]. cbn [is_nil].
    fold n. unfold floordiv.
    replace (k + 1 =? 0) with false by (symmetry; apply Z.eqb_neq; lia).
    rewrite !bind_ret. fold step.
    rewrite (range_split k (Z.min k n)) by lia. rewrite map_app.
    fold shown. unfold bind at 1. cbn [print fst snd].
    rewrite (sample_loop_in_range (p :: pairs) shown 0 _ Hshown).
    cbn [app]. f_equal.
    + f_equal.
      destruct (Z.to_nat (k - Z.min k n)) as [|j] eqn:Ej;
        [simpl; now rewrite app_nil_r|].
      cbn [seq map]. rewrite sample_loop_stop; [simpl; now rewrite app_nil_r|].
      fold n. subst step. nia.
    + destruct (Z.to_nat (k - Z.min k n)) as [|j] eqn:Ej; [reflexivity|].
      cbn [seq map]. rewrite sample_loop_stop; [reflexivity|].
      fold n. subst step. nia.
  - rewrite show_samples_length by exact Hshown.
    subst shown. unfold range. rewrite !length_map, length_seq. lia.
Qed.

(** With the indices left to the function and [k = -1] the step is a
    division by zero: on a non-empty list [sample_pairs] raises
    ZeroDivisionError before it prints. *)
Theorem sample_pairs_minus_one pairs :
  pairs <> [] ->
  sample_pairs pairs (-1) None = ([], inl ZeroDivisionError).
Proof. destruct pairs; [now intros H; elim H | reflexivity]. Qed.

Lemma sample_loop_cut pairs idx l2 l1 : forall i,
  Z.of_nat (List.length pairs) <= idx ->
  sample_loop pairs i (l1 ++ idx :: l2) = sample_loop pairs i l1.
Proof.
  induction l1 as [|j l1 IH]; intros i H.
  - simpl app. now rewrite sample_loop_stop.
  - cbn [app sample_loop].
    destruct (j >=? Z.of_nat (List.length pairs)); [reflexivity|].
    destruct (getitem pairs j) as [out [e|[en fr]]]; [reflexivity|].
    unfold bind. cbn [fst snd]. now rewrite IH.
Qed.

(** With given indices, the first index at or beyond the length of the
    list ends the display: the indices after it are not shown, in range
    or not. *)
Theorem sample_pairs_stops pairs k l1 idx l2 :
  Z.of_nat (List.length pairs) <= idx ->
  sample_pairs pairs k (Some (l1 ++ idx :: l2))
  = sample_pairs pairs k (Some l1).
Proof.
  intros H. unfold sample_pairs. destruct (is_nil pairs); [reflexivity|].
  rewrite !bind_ret. now rewrite sample_loop_cut.
Qed.

(** A negative index counts from the end of the list, and one below
    [-n] raises IndexError after the heading has been printed. *)
Theorem sample_pairs_negative_index pairs k idx rest :
  pairs <> [] -> idx < 0 ->
  let n := Z.of_nat (List.length pairs) in
  (idx < - n ->
   sample_pairs pairs k (Some (idx :: rest))
   = ([[Lit (nl ++ "=== Sample pairs ===")%string]], inl IndexError))
  /\ (- n <= idx ->
      exists p, nth_error pairs (Z.to_nat (idx + n)) = Some p
        /\ sample_pairs pairs k (Some [idx])
           = ([Lit (nl ++ "=== Sample pairs ===")%string]
                :: sample_lines 0 idx p, inr tt)).
Proof.
  intros Hne Hidx n.
  assert (Hn : 0 < n) by (subst n; destruct pairs; [now elim Hne|simpl; lia]).
  assert (Hnil : is_nil pairs = false) by (destruct pairs; [now elim Hne|reflexivity]).
  assert (Hlt : (idx >=? n) = false)
    by (rewrite Z.geb_leb; apply Z.leb_gt; lia).
  split; intros H; unfold sample_pairs; rewrite Hnil, !bind_ret;
    cbn [sample_loop]; fold n; rewrite Hlt; unfold getitem; cbv zeta;
    fold n;
    replace (idx <? 0) with true by (symmetry; apply Z.ltb_lt; lia);
    cbv iota.
  - replace (idx + n <? 0) with true by (symmetry; apply Z.ltb_lt; lia).
    reflexivity.
  - replace (idx + n <? 0) with false by (symmetry; apply Z.ltb_ge; lia).
    replace (idx + n >=? n) with false
      by (symmetry; rewrite Z.geb_leb; apply Z.leb_gt; lia).
    cbn [orb].
    destruct (nth_error pairs (Z.to_nat (idx + n))) as [[en fr]|] eqn:E.
    + exists (en, fr). split; [reflexivity|]. reflexivity.
    + apply nth_error_None in E. subst n. lia.
Qed.
End SampleExtras.

Section VocabularyExtras.
Context {T : CharTable}.

Lemma sum_perm l l' : Permutation l l' -> sum l = sum l'.
Proof.
  induction 1 as [|x l l' _ IH|x y l|l l' l'' _ IH1 _ IH2].
  - reflexivity.
  - rewrite !sum_cons. lia.
  - rewrite !sum_cons. lia.
  - congruence.
Qed.

Lemma NoDup_firstn {A} n (l : list A) : NoDup l -> NoDup (firstn n l).
Proof.
  revert l. induction n as [|n IH]; intros [|x l] H; simpl; try constructor.
  - inversion H as [|? ? Hx Hl]; subst. intros Hin. apply Hx.
    now apply In_firstn in Hin.
  - inversion H; subst. now apply IH.
Qed.

Lemma top_words_size toks top_n :
  top_size toks top_n (top_words (count_tokens toks) top_n).
Proof.
  unfold top_size, top_words.
  set (ranked := sorted_by (fun x y : str * Z => - snd x <=? - snd y)
                           (count_tokens toks)).
  assert (Hperm : Permutation ranked (count_tokens toks))
    by apply sorted_by_perm.
  assert (Hlen : List.length ranked = List.length (dedup String.eqb toks)).
  { rewrite (Permutation_length Hperm), <- count_tokens_keys.
    now rewrite length_map. }
  assert (Hnd : NoDup (map fst ranked)).
  { apply (Permutation_NoDup (l := map fst (count_tokens toks))).
    - symmetry. now apply Permutation_map.
    - rewrite count_tokens_keys. apply dedup_NoDup, String.eqb_eq. }
  split; [|split].
  - destruct (slice_to_firstn top_n ranked) as [n ->].
    rewrite <- firstn_map. now apply NoDup_firstn.
  - unfold slice_to. destruct (top_n <? 0) eqn:E;
      rewrite length_firstn, Hlen.
    + apply Z.ltb_lt in E. lia.
    + apply Z.ltb_ge in E. lia.
  - intros Hd. unfold slice_to.
    replace (top_n <? 0) with false by (symmetry; apply Z.ltb_ge; lia).
    rewrite firstn_all2 by lia.
    rewrite (sum_perm _ _ (Permutation_map snd Hperm)).
    unfold count_tokens.
    change (fold_left (fun d w => incr String.eqb w d) toks [])
      with (count_all String.eqb toks []).
    rewrite count_all_total. unfold sum. simpl. lia.
Qed.

End VocabularyExtras.

Section ReportExtras.
Context {T : CharTable}.

(** When the loader finds no pair, the report is three lines: the two of
    the loading and the notice of [basic_stats]; nothing raises, whatever
    the numbers of samples, of buckets and of words asked for, and the
    empty list is returned. *)
Theorem run_exploration_no_pairs
  tmx_path doc subset_size num_samples num_buckets top_n :
  load_tmx_subset_robust doc subset_size = [] ->
  run_exploration tmx_path doc subset_size num_samples num_buckets top_n
  = ([[Lit "Loading up to "; Int "," subset_size;
       Lit " translation units from "; Text tmx_path; Lit "..."];
      [Lit "Loaded "; Int "," 0; Lit (" pairs." ++ nl)%string];
      [Lit "No pairs loaded."]],
     inr []).
Proof. intros H. unfold run_exploration. rewrite H. reflexivity. Qed.

Lemma fst_bind_print {B} l (k : unit -> Py B) :
  fst (bind (print l) k) = l :: fst (k tt).
Proof. reflexivity. Qed.

Lemma snd_bind_print {B} l (k : unit -> Py B) :
  snd (bind (print l) k) = snd (k tt).
Proof. reflexivity. Qed.

(** The report begins with the two lines of the loading, the second
    giving the number of pairs loaded; and when it does not raise, what
    it returns is the list the loader returned. *)
Theorem run_exploration_returns_loaded
  tmx_path doc subset_size num_samples num_buckets top_n :
  (exists rest,
     fst (run_exploration tmx_path doc subset_size num_samples num_buckets top_n)
     = [Lit "Loading up to "; Int "," subset_size;
        Lit " translation units from "; Text tmx_path; Lit "..."]
       :: [Lit "Loaded ";
           Int "," (Z.of_nat (List.length
                                (load_tmx_subset_robust doc subset_size)));
           Lit (" pairs." ++ nl)%string]
       :: rest)
  /\ (forall ps,
        snd (run_exploration tmx_path doc subset_size num_samples
                             num_buckets top_n) = inr ps ->
        ps = load_tmx_subset_robust doc subset_size).
Proof.
  unfold run_exploration. split.
  - eexists. rewrite !fst_bind_print. reflexivity.
  - intros ps. rewrite !snd_bind_print, !snd_bind.
    destruct (snd (basic_stats _)); [discriminate|].
    destruct (snd (length_ratios _ _)); [discriminate|].
    destruct (snd (sentence_length_distribution _ _)); [discriminate|].
    destruct (snd (vocabulary_trends _ _)); [discriminate|].
    destruct (snd (sample_pairs _ _ _)); [discriminate|].
    simpl. now intros [= <-].
Qed.
End ReportExtras.

(** * Further properties of the tags and of the segment *)

Lemma contains_append sep a b :
  contains sep (a ++ b)%string = contains sep a || contains sep b.
Proof.
  induction a as [|c a IH]; simpl; [reflexivity|].
  now rewrite IH, orb_assoc.
Qed.

Lemma split_last_no_sep sep s : forall cur,
  contains sep s = false -> split_last sep cur s = (cur ++ s)%string.
Proof.
  induction s as [|c s IH]; intros cur H; simpl in *.
  - now rewrite append_empty.
  - apply orb_false_iff in H. destruct H as [Hc Hs].
    rewrite Hc, IH by exact Hs. now rewrite append_assoc.
Qed.

Lemma split_last_after sep a s : forall cur,
  split_last sep cur (a ++ String sep s)%string = split_last sep "" s.
Proof.
  induction a as [|c a IH]; intros cur; simpl.
  - now rewrite Ascii.eqb_refl.
  - destruct (Ascii.eqb c sep); apply IH.
Qed.

(** The name the loader compares with "tu" and "tuv" is the tag without
    its namespace: an element is known by its local name under any
    namespace, and under none. *)
Theorem local_tag_namespace (ns name : str) a tx tl cs :
  contains "}" name = false ->
  local_tag (mkElement ("{" ++ ns ++ "}" ++ name)%string a tx tl cs) = name
  /\ local_tag (mkElement name a tx tl cs) = name.
Proof.
  intros H. unfold local_tag. cbn [tag]. split; [|now rewrite H].
  change ("{" ++ ns ++ "}" ++ name)%string
    with (String "{" ns ++ String "}" name)%string.
  assert (Hc : contains "}" (String "{" ns ++ String "}" name)%string = true).
  { rewrite contains_append. simpl. now rewrite orb_true_r. }
  rewrite Hc, split_last_after. now rewrite split_last_no_sep.
Qed.

Section SegmentExtras.
Context {T : CharTable}.

(** When the first child of a variant is a segment with the plain tag,
    the text extracted is that of this segment: its own text, then the
    tails of its children, stripped.  The texts inside the children are
    not part of it. *)
Theorem seg_text_first_child elem s rest :
  children elem = s :: rest -> tag s = "seg" ->
  _get_seg_text elem
  = strip (or_empty (text s)
           ++ concat "" (map (fun e => or_empty (tail e)) (children s)))%string.
Proof.
  intros Hc Ht. unfold _get_seg_text, find_any_ns, find_child, descendants.
  rewrite Hc. destruct s as [t a tx tl cs]. simpl in Ht. subst t.
  cbn [flat_map iter app find tag matches_any_ns]. simpl String.eqb.
  cbn [orb py_or truthy children]. destruct cs; reflexivity.
Qed.

(** A segment without children that is the only child of a variant and
    does not bear the plain tag is not extracted, whatever its tag and
    its text: the variant yields the empty string. *)
Theorem seg_text_childless_not_plain elem s :
  children elem = [s] -> children s = [] -> tag s <> "seg" ->
  _get_seg_text elem = "".
Proof.
  intros Hc Hs Ht. unfold _get_seg_text, find_any_ns, find_child, descendants.
  rewrite Hc. destruct s as [t a tx tl cs]. simpl in Hs, Ht. subst cs.
  apply String.eqb_neq in Ht.
  cbn [flat_map iter app find tag children]. rewrite Ht.
  destruct (matches_any_ns "seg" t); reflexivity.
Qed.
End SegmentExtras.

(** * The further properties at sample inputs *)

Lemma loader_first_cap_pairs_witness :
  flat (tmx [tu_hello; tu_no_seg; tu_twice]) = true /\ 1 <= 2
  /\ load_tmx_subset_robust (tmx [tu_hello; tu_no_seg; tu_twice]) 2
     = firstn 2 (qualifying (tmx [tu_hello; tu_no_seg; tu_twice]))
  /\ Z.of_nat (List.length
       (load_tmx_subset_robust (tmx [tu_hello; tu_no_seg; tu_twice]) 2))
     = Z.min 2 (Z.of_nat (List.length
                  (qualifying (tmx [tu_hello; tu_no_seg; tu_twice])))).
Proof.
  split; [reflexivity|]. split; [lia|].
  apply (loader_first_cap_pairs (tmx [tu_hello; tu_no_seg; tu_twice]) 2);
    [reflexivity | lia].
Defined.

Lemma loader_cap_prefix_witness :
  1 <= 1 /\ 1 <= 3
  /\ load_tmx_subset_robust (tmx [tu_hello; tu_no_seg; tu_twice]) 1
     = firstn 1 (load_tmx_subset_robust (tmx [tu_hello; tu_no_seg; tu_twice]) 3)
  /\ Z.of_nat (List.length
       (load_tmx_subset_robust (tmx [tu_hello; tu_no_seg; tu_twice]) 1)) <= 1.
Proof.
  split; [lia|]. split; [lia|].
  apply (loader_cap_prefix (tmx [tu_hello; tu_no_seg; tu_twice]) 1 3); lia.
Defined.

Lemma loader_nonpositive_cap_witness :
  -3 <= 0
  /\ load_tmx_subset_robust (tmx [tu_hello; tu_twice]) (-3)
     = load_tmx_subset_robust (tmx [tu_hello; tu_twice]) 1.
Proof.
  split; [lia|].
  apply (loader_nonpositive_cap (tmx [tu_hello; tu_twice]) (-3)). lia.
Defined.

Lemma no_unit_no_pairs_witness :
  has_tu doc_no_unit = false /\ load_tmx_subset_robust doc_no_unit 10 = [].
Proof.
  split; [reflexivity|]. apply (no_unit_no_pairs doc_no_unit 10). reflexivity.
Defined.

Lemma lang_of_precedence_witness :
  NoDup (map fst (attrib tuv_both_attrs))
  /\ In (xml_lang, "en") (attrib tuv_both_attrs)
  /\ In ("lang", "fr") (attrib tuv_both_attrs)
  /\ lang_of tuv_both_attrs = "en".
Proof.
  assert (Hnd : NoDup (map fst (attrib tuv_both_attrs))).
  { simpl. constructor; [|constructor; [|constructor]].
    - intros [H|[]]. discriminate.
    - intros []. }
  split; [exact Hnd|]. split; [simpl; tauto|]. split; [simpl; tauto|].
  destruct (lang_of_precedence tuv_both_attrs Hnd) as [H _].
  apply H. simpl. tauto.
Defined.

Lemma loaded_texts_stripped_witness :
  In ("Hello world", "Bonjour le monde")
     (load_tmx_subset_robust (tmx [tu_padded]) 10)
  /\ stripped "Hello world" = true /\ stripped "Bonjour le monde" = true.
Proof.
  assert (H : In ("Hello world", "Bonjour le monde")
                 (load_tmx_subset_robust (tmx [tu_padded]) 10))
    by (vm_compute; tauto).
  split; [exact H|].
  exact (loaded_texts_stripped (tmx [tu_padded]) 10 _ H).
Defined.

Lemma loaded_pairs_means_witness :
  fst (ratio_series (load_tmx_subset_robust (tmx [tu_no_seg; tu_padded]) 10))
  <> []
  /\ List.length
       (snd (ratio_series (load_tmx_subset_robust (tmx [tu_no_seg; tu_padded]) 10)))
     = List.length
         (fst (ratio_series (load_tmx_subset_robust (tmx [tu_no_seg; tu_padded]) 10)))
  /\ snd (length_ratios (load_tmx_subset_robust (tmx [tu_no_seg; tu_padded]) 10) 5)
     = inr (Some
         [("mean_ratio_char",
           mean (fst (ratio_series
                   (load_tmx_subset_robust (tmx [tu_no_seg; tu_padded]) 10))));
          ("mean_ratio_word",
           mean (snd (ratio_series
                   (load_tmx_subset_robust (tmx [tu_no_seg; tu_padded]) 10))))]).
Proof.
  assert (H : fst (ratio_series
                (load_tmx_subset_robust (tmx [tu_no_seg; tu_padded]) 10)) <> [])
    by (vm_compute; discriminate).
  split; [exact H|].
  exact (loaded_pairs_means (tmx [tu_no_seg; tu_padded]) 10 5 H).
Defined.

Lemma length_ratios_raises_iff_witness :
  [("", "a"); ("", "b c")] <> []
  /\ Forall (fun p : Pair => fst p = "") [("", "a"); ("", "b c")]
  /\ snd (length_ratios [("", "a"); ("", "b c")] 10) = inl ZeroDivisionError.
Proof.
  split; [discriminate|]. split; [repeat constructor|].
  destruct (length_ratios_raises_iff [("", "a"); ("", "b c")] 10) as [_ H].
  apply H; [discriminate | repeat constructor].
Defined.

Lemma length_ratios_extremes_witness :
  fst (ratio_series pairs_extremes) <> []
  /\ exists mean_rc mean_rw shown,
       length_ratios pairs_extremes 2 =
       ([[Lit (nl ++ "=== Length ratios (FR/EN) ===")%string];
         [Lit "By character: mean="; Float ".3f" mean_rc];
         [Lit "By word:      mean="; Float ".3f" mean_rw];
         [Lit (nl ++ "Top ")%string; Int "" 2;
          Lit " pairs with highest FR/EN char ratio (EN length >= ";
          Int "" 20; Lit "):"]]
        ++ map extreme_line shown,
        inr (Some [("mean_ratio_char", mean_rc); ("mean_ratio_word", mean_rw)]))
       /\ (forall x, In x shown ->
             In (fst x) pairs_extremes /\ 20 <= len (fst (fst x))
             /\ snd x = char_ratio (fst x))
       /\ (forall a b, before a b shown ->
             (snd b <= snd a)%Q
             /\ ((snd a <= snd b)%Q -> before (fst a) (fst b) pairs_extremes))
       /\ (0 <= 2 -> Z.of_nat (List.length shown) <= 2).
Proof.
  assert (H : fst (ratio_series pairs_extremes) <> [])
    by (vm_compute; discriminate).
  split; [exact H|]. exact (length_ratios_extremes pairs_extremes 2 H).
Defined.

Lemma basic_stats_nonempty_witness :
  [("Hello world", "Bonjour le monde"); ("Hi", "Salut")] <> []
  /\ exists en_mean fr_mean en_min en_max fr_min fr_max,
       snd (basic_stats [("Hello world", "Bonjour le monde"); ("Hi", "Salut")])
       = inr [("n_pairs", NInt 2);
              ("en_char_mean", NFloat en_mean);
              ("fr_char_mean", NFloat fr_mean);
              ("en_word_mean", NFloat (inject_Z 3 / inject_Z 2)%Q);
              ("fr_word_mean", NFloat (inject_Z 4 / inject_Z 2)%Q);
              ("en_char_min", NInt en_min); ("en_char_max", NInt en_max);
              ("fr_char_min", NInt fr_min); ("fr_char_max", NInt fr_max)]
       /\ extent [11; 2] en_min en_max en_mean
       /\ extent [16; 5] fr_min fr_max fr_mean.
Proof.
  split; [discriminate|].
  exact (basic_stats_nonempty
           [("Hello world", "Bonjour le monde"); ("Hi", "Salut")]
           ltac:(discriminate)).
Defined.


Lemma distribution_zero_buckets_witness :
  pairs_five <> []
  /\ sentence_length_distribution pairs_five 0 = ([], inl ZeroDivisionError).
Proof.
  split; [discriminate|].
  apply (distribution_zero_buckets pairs_five). discriminate.
Defined.

Lemma sample_pairs_default_witness :
  pairs_three <> [] /\ 0 <= 5
  /\ sample_pairs pairs_three 5 None
     = ([Lit (nl ++ "=== Sample pairs ===")%string]
          :: show_samples pairs_three 0 [0; 1; 2], inr tt)
  /\ Z.of_nat (List.length (show_samples pairs_three 0 [0; 1; 2])) = 12.
Proof.
  split; [discriminate|]. split; [lia|].
  destruct (sample_pairs_default pairs_three 5) as [H1 [_ H3]];
    [discriminate | lia |].
  split; [exact H1 | exact H3].
Defined.

Lemma sample_pairs_minus_one_witness :
  pairs_three <> []
  /\ sample_pairs pairs_three (-1) None = ([], inl ZeroDivisionError).
Proof.
  split; [discriminate|].
  apply (sample_pairs_minus_one pairs_three). discriminate.
Defined.

Lemma sample_pairs_stops_witness :
  Z.of_nat (List.length pairs_three) <= 7
  /\ sample_pairs pairs_three 5 (Some ([2] ++ 7 :: [0; 1]))
     = sample_pairs pairs_three 5 (Some [2]).
Proof.
  split; [simpl; lia|].
  apply (sample_pairs_stops pairs_three 5 [2] 7 [0; 1]). simpl. lia.
Defined.

Lemma sample_pairs_negative_index_witness :
  pairs_three <> [] /\ -4 < 0 /\ -4 < - Z.of_nat (List.length pairs_three)
  /\ sample_pairs pairs_three 5 (Some [-4; 0])
     = ([[Lit (nl ++ "=== Sample pairs ===")%string]], inl IndexError).
Proof.
  split; [discriminate|]. split; [lia|]. split; [simpl; lia|].
  destruct (sample_pairs_negative_index pairs_three 5 (-4) [0]) as [H _];
    [discriminate | lia |].
  apply H. simpl. lia.
Defined.


Lemma run_exploration_no_pairs_witness :
  load_tmx_subset_robust doc_one_language 20000 = []
  /\ run_exploration "en-fr.tmx" doc_one_language 20000 (-1) 0 25
     = ([[Lit "Loading up to "; Int "," 20000;
          Lit " translation units from "; Text "en-fr.tmx"; Lit "..."];
         [Lit "Loaded "; Int "," 0; Lit (" pairs." ++ nl)%string];
         [Lit "No pairs loaded."]],
        inr []).
Proof.
  split; [reflexivity|].
  apply (run_exploration_no_pairs "en-fr.tmx" doc_one_language 20000 (-1) 0 25).
  reflexivity.
Defined.

Lemma run_exploration_returns_loaded_witness :
  snd (run_exploration "en-fr.tmx" (tmx [tu_hello]) 10 5 10 20)
  = inr [("Hello", "Bonjour")]
  /\ [("Hello", "Bonjour")] = load_tmx_subset_robust (tmx [tu_hello]) 10.
Proof.
  assert (H : snd (run_exploration "en-fr.tmx" (tmx [tu_hello]) 10 5 10 20)
              = inr [("Hello", "Bonjour")]) by (vm_compute; reflexivity).
  split; [exact H|].
  destruct (run_exploration_returns_loaded
              "en-fr.tmx" (tmx [tu_hello]) 10 5 10 20) as [_ H'].
  exact (H' _ H).
Defined.

Lemma local_tag_namespace_witness :
  contains "}" "tu" = false
  /\ local_tag (mkElement "{urn:tmx}tu" [] None None []) = "tu"
  /\ local_tag (mkElement "tu" [] None None []) = "tu".
Proof.
  split; [reflexivity|].
  apply (local_tag_namespace "urn:tmx" "tu" [] None None []). reflexivity.
Defined.

Lemma seg_text_first_child_witness :
  children tuv_inline
  = [mkElement "seg" [] (Some "Hello ") None
       [mkElement "b" [] (Some "big") (Some " world") []]]
  /\ _get_seg_text tuv_inline = strip ("Hello " ++ " world" ++ "")%string.
Proof.
  split; [reflexivity|].
  apply (seg_text_first_child tuv_inline
           (mkElement "seg" [] (Some "Hello ") None
              [mkElement "b" [] (Some "big") (Some " world") []]) []);
    reflexivity.
Defined.

Lemma seg_text_childless_not_plain_witness :
  children (tuv "en" [seg_ns "Hello"]) = [seg_ns "Hello"]
  /\ children (seg_ns "Hello") = [] /\ tag (seg_ns "Hello") <> "seg"
  /\ _get_seg_text (tuv "en" [seg_ns "Hello"]) = "".
Proof.
  split; [reflexivity|]. split; [reflexivity|]. split; [discriminate|].
  apply (seg_text_childless_not_plain (tuv "en" [seg_ns "Hello"])
                                      (seg_ns "Hello"));
    [reflexivity | reflexivity | discriminate].
Defined.
